(** * Neirn_SvActorReposition: side-view battler positions

    A shallow embedding of the plugin's position resolver
    ([calculateBattlePositions] with its inner [recursiveCalcPos]) and of
    the [Sprite_Actor.prototype.setActorHome] override, followed by the
    properties of the resolver.

    Modelling choices.
    - The plugin parameters [parentIndex], [x] and [y] are integers
      ([@type number] with no decimals); they are modelled as [Z].
    - [realX] and [realY] are properties that do not exist until the
      first pass assigns them, and [n + undefined] is [NaN] in
      JavaScript; they are modelled by [JSValue].
    - The [positions] array and the local [visited] array are lists
      addressed by index; an object reference such as [curr] or [parent]
      is the slot of the object in [positions].
    - The recursion of [recursiveCalcPos] is not structural; the model
      carries a recursion budget, and the pass is shown to return with
      the budget it is given. *)

From Stdlib Require Import ZArith Lia.
From stdpp Require Import base decidable option list.

(** ** Values *)

Inductive JSValue : Type :=
| JUndefined
| JNaN
| JNum (z : Z).

(** [a + b] for a number [a]: [undefined] converts to [NaN], and [NaN]
    is absorbing.  On numbers the sum is the integer sum, which is what
    the addition of doubles gives as long as both operands and the sum
    are integers of magnitude at most 2^53; the properties that name the
    number a record ends with assume that range ([ExactPosition]). *)
Definition js_add (a : Z) (b : JSValue) : JSValue :=
  match b with
  | JNum z => JNum (a + z)%Z
  | _ => JNaN
  end.

#[global] Instance JSValue_eq_dec : EqDecision JSValue.
Proof. solve_decision. Defined.

(** ** Records *)

Record BattlerPosition : Type := mkBattlerPosition {
  parentIndex : Z;
  x : Z;
  y : Z;
  realX : JSValue;
  realY : JSValue
}.

#[global] Instance BattlerPosition_eq_dec : EqDecision BattlerPosition.
Proof. solve_decision. Defined.

(** A record as the plugin manager hands it over: the struct
    [BattlerPosition] has three fields and nothing else. *)
Definition loaded (parent px py : Z) : BattlerPosition :=
  mkBattlerPosition parent px py JUndefined JUndefined.

Definition with_realX (v : JSValue) (r : BattlerPosition) : BattlerPosition :=
  mkBattlerPosition (parentIndex r) (x r) (y r) v (realY r).

Definition with_realY (v : JSValue) (r : BattlerPosition) : BattlerPosition :=
  mkBattlerPosition (parentIndex r) (x r) (y r) (realX r) v.

(** ** State of one pass *)

(** The assignments a pass performs, in order.  The trace is ghost
    state: nothing in the pass reads it. *)
Inductive Event : Type :=
| Visit (index : nat)
| SetRealX (index : nat) (v : JSValue)
| SetRealY (index : nat) (v : JSValue).

Record State : Type := mkState {
  positions : list BattlerPosition;
  visited : list bool;
  trace : list Event
}.

(** [visited[index]] read as a condition: a missing element is
    [undefined], which is falsy. *)
Definition is_visited (st : State) (index : nat) : bool :=
  default false (visited st !! index).

(** [visited[index] = true].  Past the end a JavaScript array grows, the
    new holes reading as falsy. *)
Definition array_set_true (index : nat) (l : list bool) : list bool :=
  <[index := true]> (l ++ replicate (S index - length l) false).

Definition mark (index : nat) (st : State) : State :=
  mkState (positions st) (array_set_true index (visited st))
          (trace st ++ [Visit index]).

Definition assign_realX (obj : nat) (v : JSValue) (st : State) : State :=
  mkState (alter (with_realX v) obj (positions st)) (visited st)
          (trace st ++ [SetRealX obj v]).

Definition assign_realY (obj : nat) (v : JSValue) (st : State) : State :=
  mkState (alter (with_realY v) obj (positions st)) (visited st)
          (trace st ++ [SetRealY obj v]).

(** ** The monad of the pass: state, a thrown [TypeError], and the
    recursion budget *)

Inductive Result (A : Type) : Type :=
| Ok (a : A)
| TypeError
| OutOfFuel.
Arguments Ok {A} a.
Arguments TypeError {A}.
Arguments OutOfFuel {A}.

Definition M (A : Type) : Type := State → Result (A * State).

#[global] Instance M_ret : MRet M := λ A a st, Ok (a, st).
#[global] Instance M_bind : MBind M := λ A B f m st,
  match m st with
  | Ok (a, st') => f a st'
  | TypeError => TypeError
  | OutOfFuel => OutOfFuel
  end.

Definition out_of_fuel {A} : M A := λ _, OutOfFuel.

Definition visited_at (index : nat) : M bool :=
  λ st, Ok (is_visited st index, st).

Definition set_visited (index : nat) : M unit :=
  λ st, Ok (tt, mark index st).

Definition positions_length : M Z :=
  λ st, Ok (Z.of_nat (length (positions st)), st).

(** [obj.f] where [obj = positions[slot]]; reading a property of
    [undefined] throws. *)
Definition field {A} (f : BattlerPosition → A) (slot : nat) : M A :=
  λ st, match positions st !! slot with
        | Some r => Ok (f r, st)
        | None => TypeError
        end.

Definition set_realX (slot : nat) (v : JSValue) : M unit :=
  λ st, match positions st !! slot with
        | Some _ => Ok (tt, assign_realX slot v st)
        | None => TypeError
        end.

Definition set_realY (slot : nat) (v : JSValue) : M unit :=
  λ st, match positions st !! slot with
        | Some _ => Ok (tt, assign_realY slot v st)
        | None => TypeError
        end.

(** [parentIndex < 0 || parentIndex >= positions.length] *)
Definition no_parent (len parent : Z) : bool :=
  (parent <? 0)%Z || (parent >=? len)%Z.

(** ** The resolver *)

Fixpoint recursiveCalcPos (fuel : nat) (index : nat) : M unit :=
  match fuel with
  | O => out_of_fuel
  | S fuel =>
      seen ← visited_at index;
      if (seen : bool) then mret tt else
      set_visited index;;
      let curr := index in
      parent_index ← field parentIndex curr;
      len ← positions_length;
      if no_parent len parent_index then
        cx ← field x curr;
        set_realX curr (JNum cx);;
        cy ← field y curr;
        set_realY curr (JNum cy)
      else
        recursiveCalcPos fuel (Z.to_nat parent_index);;
        let parent := Z.to_nat parent_index in
        cx ← field x curr;
        px ← field realX parent;
        set_realX curr (js_add cx px);;
        cy ← field y curr;
        py ← field realY parent;
        set_realY curr (js_add cy py)
  end.

Fixpoint for_each (body : nat → M unit) (indices : list nat) : M unit :=
  match indices with
  | [] => mret tt
  | index :: rest => body index;; for_each body rest
  end.

(** The state in which the loop starts: [visited] is allocated by the
    call and filled with [false]. *)
Definition initial (ps : list BattlerPosition) : State :=
  mkState ps (replicate (length ps) false) [].

(** One pass over [positions].  The nesting of [recursiveCalcPos] never
    exceeds [positions.length + 1] frames, which is the budget given to
    every top-level call. *)
Definition calculateBattlePositions (ps : list BattlerPosition) : Result State :=
  let n := length ps in
  match for_each (recursiveCalcPos (S n)) (seq 0 n) (initial ps) with
  | Ok (_, st) => Ok st
  | TypeError => TypeError
  | OutOfFuel => OutOfFuel
  end.

(** The [positions] parameter as the plugin receives it, given the
    three configured fields of each entry. *)
Definition load_positions (params : list (Z * Z * Z)) : list BattlerPosition :=
  (λ p, loaded p.1.1 p.1.2 p.2) <$> params.

(** The default value of the [positions] parameter. *)
Definition default_positions : list BattlerPosition :=
  [loaded (-1) 600 280; loaded 0 32 48; loaded 1 32 48; loaded 2 32 48].


(** ** The [setActorHome] override *)

(** What the override calls on the sprite: [this.setHome(x, y)], or the
    host's original [setActorHome] with the same arguments. *)
Inductive HomeCall : Type :=
| SetHome (hx hy : JSValue)
| HostSetActorHome (index : Z).

(** [positions[index]] for an arbitrary integer: [undefined] outside the
    array. *)
Definition array_get {A} (l : list A) (index : Z) : option A :=
  if (index <? 0)%Z then None else l !! Z.to_nat index.

Definition setActorHome (ps : list BattlerPosition) (index : Z) : HomeCall :=
  match array_get ps index with
  | Some position => SetHome (realX position) (realY position)
  | None => HostSetActorHome index
  end.

(** ** Vocabulary of the properties *)

Definition parent_slot (r : BattlerPosition) : nat := Z.to_nat (parentIndex r).

Definition is_root (ps : list BattlerPosition) (r : BattlerPosition) : bool :=
  no_parent (Z.of_nat (length ps)) (parentIndex r).

(** The normal returns of [recursiveCalcPos], without the budget. *)
Inductive resolves : nat → State → State → Prop :=
| resolves_seen index st :
    is_visited st index = true →
    resolves index st st
| resolves_root index st curr :
    is_visited st index = false →
    positions st !! index = Some curr →
    is_root (positions st) curr = true →
    resolves index st
      (assign_realY index (JNum (y curr))
         (assign_realX index (JNum (x curr)) (mark index st)))
| resolves_child index st st' curr curr' parent :
    is_visited st index = false →
    positions st !! index = Some curr →
    is_root (positions st) curr = false →
    resolves (parent_slot curr) (mark index st) st' →
    positions st' !! index = Some curr' →
    positions st' !! parent_slot curr = Some parent →
    resolves index st
      (assign_realY index (js_add (y curr') (realY parent))
         (assign_realX index (js_add (x curr') (realX parent)) st')).

(** The configured part of a record, which a pass must not touch. *)
Definition config (r : BattlerPosition) : Z * Z * Z := (parentIndex r, x r, y r).

Definition anchor (r : BattlerPosition) : JSValue * JSValue := (realX r, realY r).

(** The two right-hand sides of the resolver. *)
Definition own_offset (r : BattlerPosition) : JSValue * JSValue :=
  (JNum (x r), JNum (y r)).

Definition offset_from (r parent : BattlerPosition) : JSValue * JSValue :=
  (js_add (x r) (realX parent), js_add (y r) (realY parent)).

Definition unresolved (r : BattlerPosition) : Prop :=
  anchor r = (JUndefined, JUndefined).

(** Every record satisfies the equation of its branch of the resolver. *)
Definition consistent (ps : list BattlerPosition) : Prop :=
  ∀ index r, ps !! index = Some r →
    if is_root ps r then anchor r = own_offset r
    else ∃ parent, ps !! parent_slot r = Some parent ∧
                   anchor r = offset_from r parent.

(** The [positions] array at any time the plugin can run a pass: as
    loaded from the parameters, or as a previous battle left it. *)
Inductive PluginState : list BattlerPosition → Prop :=
| plugin_loaded ps :
    Forall unresolved ps → PluginState ps
| plugin_battle ps st :
    PluginState ps → calculateBattlePositions ps = Ok st →
    PluginState (positions st).

(** The absolute position of a record whose parent chain ends in a
    record without a parent: the sum of the offsets along the chain.
    A derivation is finite, so a chain that comes back to a record it
    has left has no absolute position. *)
Inductive AbsolutePosition (ps : list BattlerPosition) : nat → Z → Z → Prop :=
| abs_root index r :
    ps !! index = Some r →
    is_root ps r = true →
    AbsolutePosition ps index (x r) (y r)
| abs_child index r ax ay :
    ps !! index = Some r →
    is_root ps r = false →
    AbsolutePosition ps (parent_slot r) ax ay →
    AbsolutePosition ps index (x r + ax) (y r + ay).

(** Counting the events of a trace. *)
Inductive Kind : Type := KVisit | KSetRealX | KSetRealY.

Definition event_is (k : Kind) (index : nat) (e : Event) : bool :=
  match k, e with
  | KVisit, Visit j => Nat.eqb j index
  | KSetRealX, SetRealX j _ => Nat.eqb j index
  | KSetRealY, SetRealY j _ => Nat.eqb j index
  | _, _ => false
  end.

Fixpoint occurrences (k : Kind) (index : nat) (tr : list Event) : nat :=
  match tr with
  | [] => 0
  | e :: tr => (if event_is k index e then 1 else 0) + occurrences k index tr
  end.

(** Number of entries of [visited] that are still [false]. *)
Fixpoint unvisited (l : list bool) : nat :=
  match l with
  | [] => 0
  | b :: l => (if b then 0 else 1) + unvisited l
  end.

Definition well_formed (st : State) : Prop :=
  length (visited st) = length (positions st).

(** The [for] loop of the pass, without the budget. *)
Inductive resolves_all : list nat → State → State → Prop :=
| resolves_all_nil st : resolves_all [] st st
| resolves_all_cons index rest st st' st'' :
    resolves index st st' → resolves_all rest st' st'' →
    resolves_all (index :: rest) st st''.

(** The two assignments that end a call, taken together. *)
Definition resolved_as (vx vy : JSValue) (r : BattlerPosition) : BattlerPosition :=
  mkBattlerPosition (parentIndex r) (x r) (y r) vx vy.

(** 1 if [j] is visited in [st'] and was not in [st], else 0. *)
Definition newly_visited (st st' : State) (j : nat) : nat :=
  if is_visited st' j && negb (is_visited st j) then 1%nat else 0%nat.

(** *** Invariants of the first pass after loading *)

Definition nan2 : JSValue * JSValue := (JNaN, JNaN).

(** Records whose call has returned: visited, and not among the calls
    still [pending] on the stack. *)
Definition finished (st : State) (pending : list nat) (j : nat) : Prop :=
  is_visited st j = true ∧ j ∉ pending.

Definition stale_unresolved (st : State) (pending : list nat) : Prop :=
  ∀ j r, positions st !! j = Some r → ¬ finished st pending j → unresolved r.

Definition finished_consistent (st : State) (pending : list nat) : Prop :=
  ∀ j r, positions st !! j = Some r → finished st pending j →
    if is_root (positions st) r then anchor r = own_offset r
    else ∃ parent,
        positions st !! parent_slot r = Some parent ∧
        is_visited st (parent_slot r) = true ∧
        if decide (parent_slot r ∈ pending) then anchor r = nan2
        else anchor r = offset_from r parent.

Definition finished_closed (st : State) (pending : list nat) : Prop :=
  ∀ j r, positions st !! j = Some r → finished st pending j →
    is_root (positions st) r = false → parent_slot r ∉ pending.

(** *** Invariants for records whose chain ends in a root *)

(** Number of parent links between a record and the root of its chain. *)
Inductive chain_depth (ps : list BattlerPosition) : nat → nat → Prop :=
| depth_root index r :
    ps !! index = Some r → is_root ps r = true →
    chain_depth ps index 0
| depth_child index r d :
    ps !! index = Some r → is_root ps r = false →
    chain_depth ps (parent_slot r) d →
    chain_depth ps index (S d).

Definition finished_absolute (ps : list BattlerPosition) (st : State)
    (pending : list nat) : Prop :=
  ∀ j r ax ay, positions st !! j = Some r → finished st pending j →
    AbsolutePosition ps j ax ay → anchor r = (JNum ax, JNum ay).

(** Every pending call is on a record farther from its root than the
    record being called. *)
Definition deeper (ps : list BattlerPosition) (pending : list nat)
    (index : nat) : Prop :=
  ∀ s d d', s ∈ pending → chain_depth ps s d → chain_depth ps index d' →
    (d' < d)%nat.

(** ** The [startBattle] override *)

(** What the override calls on [BattleManager]: the host's original
    [startBattle], with the arguments it was given itself. *)
Inductive BattleManagerCall (A : Type) : Type :=
| HostStartBattle (arguments : A).
Arguments HostStartBattle {A} arguments.

(** [calculateBattlePositions()] and then the host's [startBattle].  The
    result is the [positions] array as the pass leaves it and the call
    made on the host; an exception in the pass would leave the host
    uncalled. *)
Definition startBattle {A} (arguments : A) (ps : list BattlerPosition)
    : Result (list BattlerPosition * BattleManagerCall A) :=
  match calculateBattlePositions ps with
  | Ok st => Ok (positions st, HostStartBattle arguments)
  | TypeError => TypeError
  | OutOfFuel => OutOfFuel
  end.

(** [n] battles in a row. *)
Fixpoint battles (n : nat) (ps : list BattlerPosition)
    : Result (list BattlerPosition) :=
  match n with
  | O => Ok ps
  | S n =>
      match startBattle tt ps with
      | Ok (ps', _) => battles n ps'
      | TypeError => TypeError
      | OutOfFuel => OutOfFuel
      end
  end.

(** ** Vocabulary of the further properties *)

(** The record has an absolute position: its chain ends in a root. *)
Definition anchored (ps : list BattlerPosition) (index : nat) : Prop :=
  ∃ ax ay, AbsolutePosition ps index ax ay.

Definition not_number (v : JSValue) : Prop := ∀ z, v ≠ JNum z.

(** Both derived fields have been assigned. *)
Definition assigned (r : BattlerPosition) : Prop :=
  realX r ≠ JUndefined ∧ realY r ≠ JUndefined.

(** No record of a chain that leaves the set of anchored records holds
    a number. *)
Definition unanchored_not_number (ps : list BattlerPosition) (st : State) : Prop :=
  ∀ j r, positions st !! j = Some r → ¬ anchored ps j →
    not_number (realX r) ∧ not_number (realY r).

(** Whatever numbers a record holds are its absolute position. *)
Definition numbers_are_absolute (ps : list BattlerPosition) (st : State) : Prop :=
  ∀ j r zx zy, positions st !! j = Some r →
    realX r = JNum zx → realY r = JNum zy → AbsolutePosition ps j zx zy.

(** [j] is reached from [index] by one or more valid parent links. *)
Inductive reaches (ps : list BattlerPosition) : nat → nat → Prop :=
| reaches_parent index r :
    ps !! index = Some r → is_root ps r = false →
    reaches ps index (parent_slot r)
| reaches_further index r j :
    ps !! index = Some r → is_root ps r = false →
    reaches ps (parent_slot r) j →
    reaches ps index j.

(** Every root moved by ([dx], [dy]). *)
Definition move_root (n : nat) (dx dy : Z) (r : BattlerPosition) : BattlerPosition :=
  if no_parent (Z.of_nat n) (parentIndex r)
  then mkBattlerPosition (parentIndex r) (x r + dx) (y r + dy) (realX r) (realY r)
  else r.

Definition move_roots (dx dy : Z) (ps : list BattlerPosition) : list BattlerPosition :=
  move_root (length ps) dx dy <$> ps.

(** Two party members that name each other as parent, and a third
    placed relative to the second. *)
Definition cyclic_positions : list BattlerPosition :=
  [loaded 1 10 10; loaded 0 5 5; loaded 1 3 3].

(** Every [parentIndex] is negative or the index of a record. *)
Definition parents_in_range (ps : list BattlerPosition) : Prop :=
  Forall (λ r, (parentIndex r < Z.of_nat (length ps))%Z) ps.

(** ** Exact arithmetic *)

(** The integers on which the addition of doubles is the addition of
    integers. *)
Definition safe_integer (z : Z) : Prop := (- 2 ^ 53 ≤ z ≤ 2 ^ 53)%Z.

Definition safe_integerb (z : Z) : bool :=
  (- 2 ^ 53 <=? z)%Z && (z <=? 2 ^ 53)%Z.

(** [AbsolutePosition] with every offset of the chain, and every sum
    the resolver forms along it, a safe integer. *)
Inductive ExactPosition (ps : list BattlerPosition) : nat → Z → Z → Prop :=
| exact_root index r :
    ps !! index = Some r →
    is_root ps r = true →
    safe_integer (x r) → safe_integer (y r) →
    ExactPosition ps index (x r) (y r)
| exact_child index r ax ay :
    ps !! index = Some r →
    is_root ps r = false →
    ExactPosition ps (parent_slot r) ax ay →
    safe_integer (x r) → safe_integer (y r) →
    safe_integer (x r + ax) → safe_integer (y r + ay) →
    ExactPosition ps index (x r + ax) (y r + ay).

(** The same, computed by walking at most [fuel] records of the chain. *)
Fixpoint exact_position (fuel : nat) (ps : list BattlerPosition) (index : nat)
    : option (Z * Z) :=
  match fuel with
  | O => None
  | S fuel =>
      match ps !! index with
      | None => None
      | Some r =>
          if is_root ps r then
            if safe_integerb (x r) && safe_integerb (y r)
            then Some (x r, y r) else None
          else
            match exact_position fuel ps (parent_slot r) with
            | Some (ax, ay) =>
                if safe_integerb (x r) && safe_integerb (y r) &&
                   safe_integerb (x r + ax) && safe_integerb (y r + ay)
                then Some ((x r + ax)%Z, (y r + ay)%Z) else None
            | None => None
            end
      end
  end.

(** ** Values in the trace *)

(** The values assigned to [realX] ([KSetRealX]) or [realY]
    ([KSetRealY]) of the record [index], in the order of the trace. *)
Fixpoint assigned_values (k : Kind) (index : nat) (tr : list Event)
    : list JSValue :=
  match tr with
  | [] => []
  | e :: tr =>
      match k, e with
      | KSetRealX, SetRealX j v
      | KSetRealY, SetRealY j v =>
          if Nat.eqb j index then v :: assigned_values k index tr
          else assigned_values k index tr
      | _, _ => assigned_values k index tr
      end
  end.

(** The trace and the array agree: a visited record holds the one value
    assigned to each of its fields, and nothing has been assigned to a
    record not yet visited. *)
Definition trace_matches (st : State) : Prop :=
  ∀ j,
    if is_visited st j
    then ∃ r, positions st !! j = Some r ∧
              assigned_values KSetRealX j (trace st) = [realX r] ∧
              assigned_values KSetRealY j (trace st) = [realY r]
    else assigned_values KSetRealX j (trace st) = [] ∧
         assigned_values KSetRealY j (trace st) = [].


(** * Properties *)

(** ** The budgeted function and its big-step relation *)

Lemma lookup_assign_realX obj v st j :
  positions (assign_realX obj v st) !! j =
  if decide (obj = j) then with_realX v <$> positions st !! j
  else positions st !! j.
Proof.
  cbn. rewrite list_lookup_alter. by repeat case_decide; subst.
Qed.

Lemma lookup_assign_realY obj v st j :
  positions (assign_realY obj v st) !! j =
  if decide (obj = j) then with_realY v <$> positions st !! j
  else positions st !! j.
Proof.
  cbn. rewrite list_lookup_alter. by repeat case_decide; subst.
Qed.

Lemma positions_mark index st : positions (mark index st) = positions st.
Proof. reflexivity. Qed.

(** One call of [recursiveCalcPos], with the monad unfolded. *)
Lemma recursiveCalcPos_unfold fuel index st :
  recursiveCalcPos (S fuel) index st =
  if is_visited st index then Ok (tt, st) else
  match positions st !! index with
  | None => TypeError
  | Some curr =>
      if is_root (positions st) curr then
        Ok (tt, assign_realY index (JNum (y curr))
                  (assign_realX index (JNum (x curr)) (mark index st)))
      else
        match recursiveCalcPos fuel (parent_slot curr) (mark index st) with
        | Ok (_, st') =>
            match positions st' !! index, positions st' !! parent_slot curr with
            | Some curr', Some parent =>
                Ok (tt, assign_realY index (js_add (y curr') (realY parent))
                          (assign_realX index (js_add (x curr') (realX parent)) st'))
            | _, _ => TypeError
            end
        | TypeError => TypeError
        | OutOfFuel => OutOfFuel
        end
  end.
Proof.
  cbn [recursiveCalcPos].
  unfold mbind, M_bind, visited_at, set_visited, field, positions_length,
    set_realX, set_realY, mret, M_ret, is_root, parent_slot.
  destruct (is_visited st index); [done|].
  cbn [positions mark].
  destruct (positions st !! index) as [curr|] eqn:Hc; [|done].
  destruct (no_parent _ _).
  - do 4 (rewrite ?lookup_assign_realX, ?positions_mark, ?decide_True, ?Hc by done;
          cbn [fmap option_fmap option_map y with_realX]; cbv iota beta).
    done.
  - destruct (recursiveCalcPos fuel _ _) as [[[] st']| |]; [|done..].
    destruct (positions st' !! index) as [curr'|] eqn:Hc'; [|done].
    destruct (positions st' !! Z.to_nat (parentIndex curr)) as [parent|] eqn:Hp;
      [|done].
    cbv iota beta. rewrite Hc'. cbv iota beta.
    rewrite !lookup_assign_realX, decide_True, Hc' by done.
    cbn [fmap option_fmap option_map y with_realX]. cbv iota beta.
    rewrite lookup_assign_realX, Hp.
    case_decide as Hj; cbn [fmap option_fmap option_map realY with_realX];
      cbv iota beta; rewrite lookup_assign_realX, decide_True, Hc' by done;
      done.
Qed.

Lemma recursiveCalcPos_resolves fuel index st st' :
  recursiveCalcPos fuel index st = Ok (tt, st') → resolves index st st'.
Proof.
  revert index st st'. induction fuel as [|fuel IH]; intros index st st' H.
  - discriminate.
  - rewrite recursiveCalcPos_unfold in H.
    destruct (is_visited st index) eqn:Hv.
    + injection H as <-. by constructor.
    + destruct (positions st !! index) as [curr|] eqn:Hc; [|discriminate].
      destruct (is_root (positions st) curr) eqn:Hr.
      * injection H as <-. by constructor.
      * destruct (recursiveCalcPos fuel _ _) as [[[] st1]| |] eqn:Hrec;
          [|discriminate..].
        destruct (positions st1 !! index) as [curr'|] eqn:Hc'; [|discriminate].
        destruct (positions st1 !! parent_slot curr) as [parent|] eqn:Hp;
          [|discriminate].
        injection H as <-. eapply resolves_child; eauto.
Qed.

(** ** Elementary facts about the state operations *)

Lemma is_visited_mark index st j :
  is_visited (mark index st) j = bool_decide (index = j) || is_visited st j.
Proof.
  unfold is_visited, mark, array_set_true. cbn [visited].
  case_bool_decide as Hj; cbn [orb].
  - subst j. rewrite list_lookup_insert_eq; [done|].
    rewrite length_app, length_replicate. lia.
  - rewrite list_lookup_insert_ne, lookup_app by done.
    destruct (visited st !! j) as [b|]; [done|].
    destruct (replicate _ _ !! _) as [b|] eqn:Hl; [|done].
    by apply lookup_replicate_1 in Hl as [-> _].
Qed.

Lemma length_visited_mark index st :
  (index < length (visited st))%nat →
  length (visited (mark index st)) = length (visited st).
Proof.
  intros Hi. unfold mark, array_set_true. cbn [visited].
  rewrite length_insert, length_app, length_replicate. lia.
Qed.

Lemma is_visited_lt st j :
  is_visited st j = true → (j < length (visited st))%nat.
Proof.
  unfold is_visited. intros H. apply lookup_lt_is_Some.
  destruct (visited st !! j); [eauto|discriminate].
Qed.

Lemma unvisited_mark index st :
  is_visited st index = false → (index < length (visited st))%nat →
  S (unvisited (visited (mark index st))) = unvisited (visited st).
Proof.
  unfold is_visited, mark, array_set_true. cbn [visited].
  intros Hv Hi. replace (S index - length (visited st))%nat with 0%nat by lia.
  cbn [replicate]. rewrite app_nil_r.
  revert index Hv Hi. induction (visited st) as [|b l IH]; intros index Hv Hi.
  - cbn in Hi. lia.
  - destruct index as [|index]; cbn in *.
    + by subst b.
    + rewrite <- (IH index) by (done || lia). by destruct b.
Qed.

Lemma unvisited_le l : (unvisited l ≤ length l)%nat.
Proof. induction l as [|[] l IH]; cbn; lia. Qed.

Lemma config_with_realX v r : config (with_realX v r) = config r.
Proof. reflexivity. Qed.

Lemma config_with_realY v r : config (with_realY v r) = config r.
Proof. reflexivity. Qed.

Lemma fmap_alter_invariant {A B} (f : A → B) (g : A → A) i (l : list A) :
  (∀ a, f (g a) = f a) → f <$> alter g i l = f <$> l.
Proof.
  intros Hfg. revert i. induction l as [|a l IH]; intros [|i]; cbn; f_equal; auto.
Qed.

Lemma is_root_false_lt ps r :
  is_root ps r = false → (parent_slot r < length ps)%nat.
Proof.
  unfold is_root, no_parent, parent_slot. intros H.
  apply orb_false_elim in H as [H1 H2].
  apply Z.ltb_ge in H1. rewrite Z.geb_leb in H2. apply Z.leb_gt in H2. lia.
Qed.

Lemma is_root_ext ps ps' r r' :
  length ps' = length ps → config r' = config r →
  is_root ps' r' = is_root ps r.
Proof.
  unfold is_root, config. intros -> H. by injection H as -> _ _.
Qed.

Lemma lookup_assigned index vx vy st j :
  positions (assign_realY index vy (assign_realX index vx st)) !! j =
  if decide (index = j) then resolved_as vx vy <$> positions st !! j
  else positions st !! j.
Proof.
  rewrite lookup_assign_realY, lookup_assign_realX.
  case_decide; [|done]. by destruct (positions st !! j).
Qed.

Lemma length_assigned index vx vy st :
  length (positions (assign_realY index vy (assign_realX index vx st))) =
  length (positions st).
Proof. cbn. by rewrite !length_alter. Qed.

Lemma config_assigned index vx vy st :
  config <$> positions (assign_realY index vy (assign_realX index vx st)) =
  config <$> positions st.
Proof. cbn. by rewrite !fmap_alter_invariant. Qed.

Lemma is_visited_assigned index vx vy st j :
  is_visited (assign_realY index vy (assign_realX index vx st)) j =
  is_visited st j.
Proof. reflexivity. Qed.

Lemma well_formed_assigned index vx vy st :
  well_formed st →
  well_formed (assign_realY index vy (assign_realX index vx st)).
Proof. unfold well_formed. rewrite length_assigned. by cbn. Qed.

Lemma well_formed_mark index st :
  well_formed st → (index < length (positions st))%nat →
  well_formed (mark index st).
Proof.
  unfold well_formed. intros Hwf Hi.
  rewrite length_visited_mark, positions_mark; [done|lia].
Qed.

(** ** What a call changes *)

Lemma resolves_shape index st st' :
  resolves index st st' →
  well_formed st → (index < length (positions st))%nat →
  length (positions st') = length (positions st) ∧
  well_formed st' ∧
  config <$> positions st' = config <$> positions st ∧
  is_visited st' index = true ∧
  (∀ j, is_visited st j = true → is_visited st' j = true) ∧
  (∀ j, is_visited st j = true ∨ is_visited st' j = false →
        positions st' !! j = positions st !! j).
Proof.
  induction 1 as [index st Hv|index st curr Hv Hc Hr
                 |index st st' curr curr' parent Hv Hc Hr Hrec IH Hc' Hp];
    intros Hwf Hi.
  - done.
  - rewrite length_assigned, config_assigned.
    split_and!; [done|by apply well_formed_assigned, well_formed_mark|done|..].
    + rewrite is_visited_assigned, is_visited_mark.
      by rewrite bool_decide_eq_true_2.
    + intros j Hj. rewrite is_visited_assigned, is_visited_mark, Hj.
      apply orb_true_r.
    + intros j Hj. rewrite lookup_assigned, positions_mark.
      case_decide as Hij; [|done]. subst j.
      rewrite is_visited_assigned, is_visited_mark in Hj.
      rewrite bool_decide_eq_true_2 in Hj by done. cbn in Hj.
      destruct Hj; congruence.
  - destruct IH as (Hlen & Hwf' & Hcfg & Hvp & Hmono & Hframe).
    { by apply well_formed_mark. }
    { rewrite positions_mark. by apply is_root_false_lt. }
    rewrite positions_mark in *.
    assert (is_visited st' index = true) as Hvi.
    { apply Hmono. rewrite is_visited_mark.
      by rewrite bool_decide_eq_true_2. }
    rewrite length_assigned, config_assigned.
    split_and!; [done|by apply well_formed_assigned|done|done|..].
    + intros j Hj. rewrite is_visited_assigned. apply Hmono.
      rewrite is_visited_mark, Hj. apply orb_true_r.
    + intros j Hj. rewrite lookup_assigned.
      rewrite is_visited_assigned in Hj.
      case_decide as Hij.
      { subst j. destruct Hj; congruence. }
      apply Hframe. rewrite is_visited_mark.
      rewrite bool_decide_eq_false_2 by done. done.
Qed.

(** ** Termination *)

Lemma recursiveCalcPos_returns fuel index st :
  well_formed st → (index < length (positions st))%nat →
  (unvisited (visited st) < fuel)%nat →
  ∃ st', recursiveCalcPos fuel index st = Ok (tt, st').
Proof.
  revert index st. induction fuel as [|fuel IH]; intros index st Hwf Hi Hfuel.
  - lia.
  - rewrite recursiveCalcPos_unfold.
    destruct (is_visited st index) eqn:Hv; [eauto|].
    destruct (lookup_lt_is_Some_2 _ _ Hi) as [curr Hc]. rewrite Hc.
    destruct (is_root (positions st) curr) eqn:Hr; [eauto|].
    assert (index < length (visited st))%nat as Hi' by (unfold well_formed in Hwf; lia).
    pose proof (unvisited_mark _ _ Hv Hi') as Hm.
    pose proof (is_root_false_lt _ _ Hr) as Hp.
    destruct (IH (parent_slot curr) (mark index st)) as [st' Hrec].
    { by apply well_formed_mark. }
    { by rewrite positions_mark. }
    { lia. }
    rewrite Hrec.
    apply recursiveCalcPos_resolves, resolves_shape in Hrec as (Hlen & _);
      [|by apply well_formed_mark|by rewrite positions_mark].
    rewrite positions_mark in Hlen.
    destruct (lookup_lt_is_Some_2 (positions st') index) as [curr' ->]; [lia|].
    destruct (lookup_lt_is_Some_2 (positions st') (parent_slot curr)) as [parent ->];
      [lia|].
    eauto.
Qed.

(** The result does not depend on how generous the budget is. *)
Lemma recursiveCalcPos_fuel_mono fuel fuel' index st st' :
  (fuel ≤ fuel')%nat →
  recursiveCalcPos fuel index st = Ok (tt, st') →
  recursiveCalcPos fuel' index st = Ok (tt, st').
Proof.
  revert fuel' index st st'.
  induction fuel as [|fuel IH]; intros fuel' index st st' Hle H; [discriminate|].
  destruct fuel' as [|fuel']; [lia|].
  rewrite recursiveCalcPos_unfold in *.
  destruct (is_visited st index); [done|].
  destruct (positions st !! index) as [curr|]; [|done].
  destruct (is_root (positions st) curr); [done|].
  destruct (recursiveCalcPos fuel _ _) as [[[] st1]| |] eqn:Hrec; [|done..].
  by rewrite (IH fuel' _ _ st1) by (done || lia).
Qed.

Lemma for_each_returns n indices st :
  well_formed st → length (positions st) = n →
  Forall (λ index, index < n)%nat indices →
  ∃ st', for_each (recursiveCalcPos (S n)) indices st = Ok (tt, st') ∧
         resolves_all indices st st'.
Proof.
  intros Hwf Hn Hall. revert st Hwf Hn.
  induction Hall as [|index rest Hi _ IH]; intros st Hwf Hn.
  - eexists. split; [done|constructor].
  - destruct (recursiveCalcPos_returns (S n) index st) as [st1 H1]; [done|lia|..].
    { pose proof (unvisited_le (visited st)). unfold well_formed in Hwf. lia. }
    pose proof (recursiveCalcPos_resolves _ _ _ _ H1) as Hres.
    destruct (resolves_shape _ _ _ Hres) as (Hlen & Hwf1 & _); [done|lia|].
    destruct (IH st1) as (st2 & H2 & Hall2); [done|lia|].
    exists st2. split; [|by econstructor].
    cbn [for_each]. unfold mbind, M_bind. by rewrite H1.
Qed.

Lemma well_formed_initial ps : well_formed (initial ps).
Proof. unfold well_formed. cbn. apply length_replicate. Qed.

Lemma calculateBattlePositions_returns ps :
  ∃ st, calculateBattlePositions ps = Ok st ∧
        resolves_all (seq 0 (length ps)) (initial ps) st.
Proof.
  destruct (for_each_returns (length ps) (seq 0 (length ps)) (initial ps))
    as (st & H & Hall).
  - apply well_formed_initial.
  - done.
  - apply Forall_forall. intros i Hi%elem_of_seq. lia.
  - exists st. split; [|done].
    unfold calculateBattlePositions. fold (initial ps). by rewrite H.
Qed.

(** ** The trace of a call *)

Lemma occurrences_app k j tr1 tr2 :
  occurrences k j (tr1 ++ tr2) = (occurrences k j tr1 + occurrences k j tr2)%nat.
Proof. induction tr1 as [|e tr1 IH]; cbn; [done|]. rewrite IH. lia. Qed.

Lemma occurrences_body k j index vx vy :
  (occurrences k j [Visit index] + occurrences k j [SetRealX index vx] +
   occurrences k j [SetRealY index vy])%nat =
  if bool_decide (index = j) then 1%nat else 0%nat.
Proof.
  case_bool_decide as Hj.
  - subst j. destruct k; cbn; by rewrite Nat.eqb_refl.
  - apply Nat.eqb_neq in Hj. destruct k; cbn; by rewrite Hj.
Qed.

(** A call marks, and assigns [realX] and [realY] of, exactly the
    records it is the first to visit, once each. *)
Lemma resolves_trace index st st' :
  resolves index st st' →
  well_formed st → (index < length (positions st))%nat →
  ∀ k j, occurrences k j (trace st') =
         (occurrences k j (trace st) + newly_visited st st' j)%nat.
Proof.
  induction 1 as [index st Hv|index st curr Hv Hc Hr
                 |index st st' curr curr' parent Hv Hc Hr Hrec IH Hc' Hp];
    intros Hwf Hi k j; unfold newly_visited in *.
  - destruct (is_visited st j); cbn; lia.
  - rewrite is_visited_assigned, is_visited_mark. cbn [trace assign_realX assign_realY mark].
    rewrite !occurrences_app, <- !Nat.add_assoc, (Nat.add_assoc (occurrences k j [_])).
    rewrite occurrences_body.
    case_bool_decide as Hj; [subst j; rewrite Hv; cbn; lia|].
    cbn [orb]. destruct (is_visited st j); cbn; lia.
  - pose proof (is_root_false_lt _ _ Hr) as Hlt.
    specialize (IH (well_formed_mark _ _ Hwf Hi) Hlt k j).
    destruct (resolves_shape _ _ _ Hrec (well_formed_mark _ _ Hwf Hi) Hlt)
      as (_ & _ & _ & _ & Hmono & _).
    rewrite is_visited_assigned. cbn [trace assign_realX assign_realY mark] in *.
    rewrite !occurrences_app, IH, !occurrences_app.
    pose proof (occurrences_body k j index
                  (js_add (x curr') (realX parent))
                  (js_add (y curr') (realY parent))) as Hb.
    rewrite is_visited_mark in *.
    case_bool_decide as Hj.
    + subst j. cbn [orb negb] in *.
      rewrite (Hmono index) by (by rewrite is_visited_mark, bool_decide_eq_true_2).
      rewrite Hv. cbn [andb negb]. lia.
    + cbn [orb] in *. lia.
Qed.

(** ** What the loop changes *)

Lemma resolves_all_shape indices st st' :
  resolves_all indices st st' →
  well_formed st → Forall (λ index, index < length (positions st))%nat indices →
  length (positions st') = length (positions st) ∧
  well_formed st' ∧
  config <$> positions st' = config <$> positions st ∧
  (∀ j, is_visited st j = true → is_visited st' j = true) ∧
  (∀ j, j ∈ indices → is_visited st' j = true) ∧
  (∀ k j, occurrences k j (trace st') =
          (occurrences k j (trace st) + newly_visited st st' j)%nat).
Proof.
  induction 1 as [st|index rest st st' st'' Hres Hall IH]; intros Hwf Hlt.
  - split_and!; try done.
    + intros j Hj. by apply elem_of_nil in Hj.
    + intros k j. unfold newly_visited. destruct (is_visited st j); cbn; lia.
  - apply Forall_cons in Hlt as [Hi Hlt].
    destruct (resolves_shape _ _ _ Hres Hwf Hi)
      as (Hlen & Hwf' & Hcfg & Hvi & Hmono & _).
    pose proof (resolves_trace _ _ _ Hres Hwf Hi) as Htr.
    destruct IH as (Hlen' & Hwf'' & Hcfg' & Hmono' & Hvis & Htr').
    { done. }
    { by rewrite Hlen. }
    split_and!; try done; try congruence.
    + auto.
    + intros j [->|Hj]%elem_of_cons; auto.
    + intros k j. rewrite Htr', Htr. unfold newly_visited.
      specialize (Hmono j). specialize (Hmono' j).
      destruct (is_visited st j), (is_visited st' j), (is_visited st'' j);
        cbn; try lia; try (by discriminate Hmono); by discriminate Hmono'.
Qed.

Lemma is_visited_initial ps j : is_visited (initial ps) j = false.
Proof.
  unfold is_visited, initial. cbn.
  destruct (replicate _ _ !! j) as [b|] eqn:Hl; [|done].
  by apply lookup_replicate_1 in Hl as [-> _].
Qed.

(** Summary of a pass: the shape of [positions] and the configured
    fields are kept, every record is visited, and every record is the
    subject of exactly one event of each kind. *)
Lemma pass_shape ps st :
  calculateBattlePositions ps = Ok st →
  resolves_all (seq 0 (length ps)) (initial ps) st ∧
  length (positions st) = length ps ∧
  config <$> positions st = config <$> ps ∧
  (∀ j, is_visited st j = bool_decide (j < length ps)%nat) ∧
  (∀ k j, occurrences k j (trace st) =
          if bool_decide (j < length ps)%nat then 1%nat else 0%nat).
Proof.
  intros H. destruct (calculateBattlePositions_returns ps) as (st0 & H0 & Hall).
  rewrite H in H0. injection H0 as <-.
  destruct (resolves_all_shape _ _ _ Hall)
    as (Hlen & Hwf & Hcfg & _ & Hvis & Htr).
  { apply well_formed_initial. }
  { apply Forall_forall. intros i Hi%elem_of_seq. cbn. lia. }
  cbn [positions initial] in *.
  assert (∀ j, is_visited st j = bool_decide (j < length ps)%nat) as Hv.
  { intros j. case_bool_decide as Hj.
    - apply Hvis, elem_of_seq. lia.
    - destruct (is_visited st j) eqn:Hvj; [|done].
      apply is_visited_lt in Hvj. unfold well_formed in Hwf. lia. }
  split_and!; try done.
  intros k j. rewrite Htr. unfold newly_visited.
  rewrite Hv, is_visited_initial. cbn. by case_bool_decide.
Qed.

(** ** The first pass after loading *)

Lemma offset_from_unresolved r q : unresolved q → offset_from r q = nan2.
Proof.
  unfold unresolved, anchor, offset_from. intros [= -> ->]. done.
Qed.

Lemma offset_from_nan r q : anchor q = nan2 → offset_from r q = nan2.
Proof.
  unfold anchor, offset_from, nan2. intros [= -> ->]. done.
Qed.

Lemma is_root_length ps ps' r :
  length ps' = length ps → is_root ps' r = is_root ps r.
Proof. unfold is_root. by intros ->. Qed.

Lemma finished_mark index st pending j :
  is_visited st index = false →
  finished (mark index st) (index :: pending) j ↔ finished st pending j.
Proof.
  intros Hv. unfold finished. rewrite is_visited_mark, not_elem_of_cons.
  case_bool_decide as Hj; cbn [orb].
  - subst j. rewrite Hv. intuition congruence.
  - intuition congruence.
Qed.

Lemma resolves_root_consistent index st curr pending :
  is_visited st index = false →
  index ∉ pending →
  positions st !! index = Some curr →
  is_root (positions st) curr = true →
  stale_unresolved st pending →
  finished_consistent st pending →
  finished_closed st pending →
  let st' := assign_realY index (JNum (y curr))
               (assign_realX index (JNum (x curr)) (mark index st)) in
  stale_unresolved st' pending ∧
  finished_consistent st' pending ∧
  finished_closed st' pending.
Proof.
  intros Hv Hnp Hc Hr Hstale Hcons Hclosed st'.
  assert (∀ j, is_visited st' j = bool_decide (index = j) || is_visited st j)
    as Hvis by (intros j; apply is_visited_mark).
  assert (∀ j, positions st' !! j =
               if decide (index = j)
               then resolved_as (JNum (x curr)) (JNum (y curr)) <$> positions st !! j
               else positions st !! j) as Hlook.
  { intros j. unfold st'. by rewrite lookup_assigned, positions_mark. }
  assert (∀ r, is_root (positions st') r = is_root (positions st) r) as Hroot.
  { intros r. apply is_root_length. unfold st'.
    by rewrite length_assigned, positions_mark. }
  assert (finished st' pending index) as Hfi.
  { split; [|done]. by rewrite Hvis, bool_decide_eq_true_2. }
  assert (∀ j, j ≠ index → finished st' pending j ↔ finished st pending j) as Hfin.
  { intros j Hj. unfold finished. rewrite Hvis.
    by rewrite bool_decide_eq_false_2. }
  clearbody st'.
  split_and!.
  - intros j r Hl Hnf. rewrite Hlook in Hl. case_decide as Hj; [by subst j|].
    apply (Hstale j r Hl). by rewrite <- Hfin.
  - intros j r Hl Hf. rewrite Hlook in Hl. rewrite Hroot.
    case_decide as Hj.
    + subst j. rewrite Hc in Hl. injection Hl as <-.
      change (is_root (positions st) (resolved_as (JNum (x curr)) (JNum (y curr)) curr))
        with (is_root (positions st) curr).
      by rewrite Hr.
    + apply Hfin in Hf; [|done]. specialize (Hcons j r Hl Hf).
      destruct (is_root (positions st) r); [done|].
      destruct Hcons as (parent & Hp & Hvp & Heq).
      exists parent. rewrite Hlook, Hvis, Hvp, orb_true_r.
      rewrite decide_False by congruence. done.
  - intros j r Hl Hf. rewrite Hlook in Hl. rewrite Hroot.
    case_decide as Hj.
    + subst j. rewrite Hc in Hl. injection Hl as <-.
      change (is_root (positions st) (resolved_as (JNum (x curr)) (JNum (y curr)) curr))
        with (is_root (positions st) curr).
      congruence.
    + apply Hfin in Hf; [|done]. by apply (Hclosed j r).
Qed.

Lemma resolves_child_consistent index st' curr parent pending :
  index ∉ pending →
  is_visited st' index = true →
  is_visited st' (parent_slot curr) = true →
  positions st' !! index = Some curr →
  is_root (positions st') curr = false →
  positions st' !! parent_slot curr = Some parent →
  stale_unresolved st' (index :: pending) →
  finished_consistent st' (index :: pending) →
  finished_closed st' (index :: pending) ∨ anchor parent = nan2 →
  let st'' := assign_realY index (js_add (y curr) (realY parent))
                (assign_realX index (js_add (x curr) (realX parent)) st') in
  stale_unresolved st'' pending ∧
  finished_consistent st'' pending ∧
  (finished_closed st'' pending ∨
   ∃ r, positions st'' !! index = Some r ∧ anchor r = nan2).
Proof.
  intros Hnp Hvi Hvp Hc Hr Hp Hstale Hcons Hclosed.
  set (new := resolved_as (js_add (x curr) (realX parent))
                          (js_add (y curr) (realY parent)) curr).
  assert (anchor new = offset_from curr parent) as Hnew by done.
  intros st''.
  assert (∀ j, is_visited st'' j = is_visited st' j) as Hvis by done.
  assert (∀ j, positions st'' !! j =
               if decide (index = j) then Some new else positions st' !! j)
    as Hlook.
  { intros j. unfold st''. rewrite lookup_assigned.
    case_decide; [|done]. subst j. by rewrite Hc. }
  assert (∀ r, is_root (positions st'') r = is_root (positions st') r) as Hroot.
  { intros r. apply is_root_length. unfold st''. by rewrite length_assigned. }
  assert (∀ j, j ≠ index →
               finished st'' pending j ↔ finished st' (index :: pending) j)
    as Hfin.
  { intros j Hj. unfold finished. rewrite Hvis, not_elem_of_cons. tauto. }
  assert (unresolved curr) as Hcurr.
  { apply (Hstale index curr Hc). intros [_ Hn]. apply Hn. by left. }
  assert (parent_slot curr ∈ pending → anchor new = nan2) as Hpend.
  { intros Hin. rewrite Hnew. apply offset_from_unresolved.
    apply (Hstale _ _ Hp). intros [_ Hn]. apply Hn. by right. }
  clearbody st''.
  split_and!.
  - intros j r Hl Hnf. rewrite Hlook in Hl. case_decide as Hj.
    { subst j. destruct Hnf. split; [by rewrite Hvis|done]. }
    apply (Hstale j r Hl). by rewrite <- Hfin.
  - intros j r Hl Hf. rewrite Hlook in Hl. rewrite Hroot.
    case_decide as Hj.
    + subst j. injection Hl as <-.
      change (is_root (positions st') new) with (is_root (positions st') curr).
      rewrite Hr. change (parent_slot new) with (parent_slot curr).
      rewrite Hlook, Hvis.
      destruct (decide (index = parent_slot curr)) as [Hself|Hself].
      * exists new. split_and!; [done|done|].
        rewrite decide_False by (by rewrite <- Hself).
        assert (parent = curr) as Heq by congruence.
        assert (anchor new = nan2) as Hnan.
        { rewrite Hnew. apply offset_from_unresolved. by rewrite Heq. }
        rewrite Hnan. symmetry. by apply offset_from_nan.
      * exists parent. split_and!; [done|done|].
        destruct (decide (parent_slot curr ∈ pending)) as [Hin|Hin];
          [by apply Hpend|done].
    + apply Hfin in Hf; [|done]. specialize (Hcons j r Hl Hf).
      destruct (is_root (positions st') r) eqn:Hrj; [done|].
      destruct Hcons as (q & Hq & Hvq & Heq).
      rewrite Hlook, Hvis.
      destruct (decide (index = parent_slot r)) as [Hpj|Hpj].
      * exists new. split_and!; [done|done|].
        rewrite decide_False by (by rewrite <- Hpj).
        rewrite decide_True in Heq by (rewrite <- Hpj; by left).
        rewrite Heq. symmetry. apply offset_from_nan.
        rewrite Hnew. apply offset_from_nan.
        destruct Hclosed as [Hclosed|Hnan]; [|done].
        destruct (Hclosed j r Hl Hf Hrj). rewrite <- Hpj. by left.
      * exists q. split_and!; [done|done|].
        destruct (decide (parent_slot r ∈ pending)) as [Hin|Hin].
        { rewrite decide_True in Heq by (by right). done. }
        rewrite decide_False in Heq; [done|].
        rewrite not_elem_of_cons. split; [congruence|done].
  - destruct (decide (parent_slot curr ∈ pending)) as [Hin|Hin].
    { right. exists new. split; [|by apply Hpend].
      by rewrite Hlook, decide_True. }
    destruct Hclosed as [Hclosed|Hnan].
    + left. intros j r Hl Hf. rewrite Hlook in Hl. rewrite Hroot.
      case_decide as Hj.
      * subst j. by injection Hl as <-.
      * apply Hfin in Hf; [|done]. intros Hrj.
        specialize (Hclosed j r Hl Hf Hrj).
        rewrite not_elem_of_cons in Hclosed. tauto.
    + right. exists new. split; [by rewrite Hlook, decide_True|].
      rewrite Hnew. by apply offset_from_nan.
Qed.

(** On records loaded from the parameters every returned call satisfies
    the equation of its branch.  A record that reads a parent whose call
    is still pending reads [undefined], gets [NaN], and passes [NaN]
    down to the pending parent itself. *)
Lemma resolves_consistent index st st' :
  resolves index st st' → ∀ pending,
  well_formed st → (index < length (positions st))%nat →
  (∀ s, s ∈ pending → is_visited st s = true) →
  stale_unresolved st pending →
  finished_consistent st pending →
  finished_closed st pending →
  stale_unresolved st' pending ∧
  finished_consistent st' pending ∧
  (finished_closed st' pending ∨
   ∃ r, positions st' !! index = Some r ∧ anchor r = nan2).
Proof.
  induction 1 as [index st Hv|index st curr Hv Hc Hr
                 |index st st' curr curr' parent Hv Hc Hr Hrec IH Hc' Hp];
    intros pending Hwf Hi Hpend Hstale Hcons Hclosed.
  - auto.
  - assert (index ∉ pending) as Hnp.
    { intros Hin. apply Hpend in Hin. congruence. }
    destruct (resolves_root_consistent index st curr pending)
      as (H1 & H2 & H3); auto.
  - assert (index ∉ pending) as Hnp.
    { intros Hin. apply Hpend in Hin. congruence. }
    pose proof (is_root_false_lt _ _ Hr) as Hlt.
    pose proof (well_formed_mark _ _ Hwf Hi) as Hwf1.
    destruct (resolves_shape _ _ _ Hrec Hwf1 Hlt)
      as (Hlen & _ & _ & Hvp & Hmono & Hframe).
    rewrite positions_mark in Hlen.
    assert (is_visited (mark index st) index = true) as Hv1.
    { by rewrite is_visited_mark, bool_decide_eq_true_2. }
    assert (curr' = curr) as ->.
    { rewrite Hframe, positions_mark in Hc' by auto. congruence. }
    destruct (IH (index :: pending)) as (Hstale' & Hcons' & Hclosed'); try done.
    + intros s [->|Hs]%elem_of_cons; [done|].
      rewrite is_visited_mark, (Hpend s Hs). apply orb_true_r.
    + intros j r Hl Hnf. rewrite positions_mark in Hl.
      apply (Hstale j r Hl). by rewrite <- (finished_mark index).
    + intros j r Hl Hf. rewrite positions_mark in *.
      apply finished_mark in Hf; [|done].
      specialize (Hcons j r Hl Hf). specialize (Hclosed j r Hl Hf).
      destruct (is_root (positions st) r); [done|].
      destruct Hcons as (q & Hq & Hvq & Heq).
      exists q. rewrite is_visited_mark, Hvq, orb_true_r.
      split_and!; [done|done|].
      rewrite decide_False in Heq by auto.
      rewrite decide_False; [done|].
      rewrite not_elem_of_cons. split; [congruence|auto].
    + intros j r Hl Hf Hrj. rewrite positions_mark in *.
      apply finished_mark in Hf; [|done].
      specialize (Hcons j r Hl Hf). rewrite Hrj in Hcons.
      destruct Hcons as (q & Hq & Hvq & Heq).
      rewrite not_elem_of_cons. split; [congruence|by apply (Hclosed j r)].
    + apply resolves_child_consistent; try done.
      * by apply Hmono.
      * by rewrite (is_root_length (positions st)).
      * destruct Hclosed' as [?|(r & Hr' & Hnan)]; [by left|right].
        congruence.
Qed.

Lemma resolves_all_consistent indices st st' :
  resolves_all indices st st' →
  well_formed st → Forall (λ index, index < length (positions st))%nat indices →
  stale_unresolved st [] → finished_consistent st [] →
  stale_unresolved st' [] ∧ finished_consistent st' [].
Proof.
  induction 1 as [st|index rest st st' st'' Hres Hall IH];
    intros Hwf Hlt Hstale Hcons; [done|].
  apply Forall_cons in Hlt as [Hi Hlt].
  destruct (resolves_shape _ _ _ Hres Hwf Hi) as (Hlen & Hwf' & _).
  destruct (resolves_consistent _ _ _ Hres [] Hwf Hi) as (Hstale' & Hcons' & _);
    try done.
  { intros s Hs. by apply elem_of_nil in Hs. }
  { intros j r _ _ _ Hin. by apply elem_of_nil in Hin. }
  apply IH; try done. by rewrite Hlen.
Qed.

(** The first pass leaves every record satisfying its equation. *)
Lemma pass_consistent ps st :
  Forall unresolved ps → calculateBattlePositions ps = Ok st →
  consistent (positions st).
Proof.
  intros Hun H.
  destruct (pass_shape ps st H) as (Hall & Hlen & _ & Hvis & _).
  destruct (resolves_all_consistent _ _ _ Hall) as (_ & Hcons).
  { apply well_formed_initial. }
  { apply Forall_forall. intros i Hi%elem_of_seq. cbn. lia. }
  { intros j r Hl _. cbn in Hl.
    by apply (Forall_lookup_1 _ _ _ _ Hun Hl). }
  { intros j r _ [Hf _]. by rewrite is_visited_initial in Hf. }
  intros j r Hl.
  assert (finished st [] j) as Hf.
  { split; [|apply not_elem_of_nil]. rewrite Hvis.
    apply bool_decide_eq_true_2. apply lookup_lt_Some in Hl. lia. }
  specialize (Hcons j r Hl Hf).
  destruct (is_root (positions st) r); [done|].
  destruct Hcons as (parent & Hp & _ & Heq). by exists parent.
Qed.

(** ** A pass over consistent records *)

Lemma resolved_as_id vx vy r : anchor r = (vx, vy) → resolved_as vx vy r = r.
Proof. destruct r. unfold anchor. cbn. by intros [= -> ->]. Qed.

Lemma positions_assigned_id index vx vy st r :
  positions st !! index = Some r → anchor r = (vx, vy) →
  positions (assign_realY index vy (assign_realX index vx st)) = positions st.
Proof.
  intros Hl Ha. apply list_eq. intros j. rewrite lookup_assigned.
  case_decide as Hj; [|done]. subst j.
  by rewrite Hl; cbn; rewrite resolved_as_id.
Qed.

Lemma resolves_fixed index st st' :
  resolves index st st' → consistent (positions st) →
  positions st' = positions st.
Proof.
  induction 1 as [index st Hv|index st curr Hv Hc Hr
                 |index st st' curr curr' parent Hv Hc Hr Hrec IH Hc' Hp];
    intros Hcons.
  - done.
  - specialize (Hcons index curr Hc). rewrite Hr in Hcons.
    by rewrite (positions_assigned_id _ _ _ _ curr).
  - specialize (IH Hcons). rewrite positions_mark in IH.
    rewrite IH in Hc', Hp.
    assert (curr' = curr) as -> by congruence.
    specialize (Hcons index curr Hc). rewrite Hr in Hcons.
    destruct Hcons as (parent' & Hp' & Heq).
    assert (parent' = parent) as -> by congruence.
    rewrite (positions_assigned_id _ _ _ _ curr); [done|by rewrite IH|done].
Qed.

Lemma resolves_all_fixed indices st st' :
  resolves_all indices st st' → consistent (positions st) →
  positions st' = positions st.
Proof.
  induction 1 as [st|index rest st st' st'' Hres Hall IH]; intros Hcons; [done|].
  pose proof (resolves_fixed _ _ _ Hres Hcons) as Heq.
  rewrite IH; [done|]. by rewrite Heq.
Qed.

Lemma pass_fixed ps st :
  consistent ps → calculateBattlePositions ps = Ok st → positions st = ps.
Proof.
  intros Hcons H. destruct (pass_shape ps st H) as (Hall & _).
  by apply resolves_all_fixed in Hall.
Qed.

Lemma load_positions_PluginState params : PluginState (load_positions params).
Proof.
  apply plugin_loaded, Forall_fmap, Forall_forall. by intros [[p a] b] _.
Qed.

Lemma config_load_positions params : config <$> load_positions params = params.
Proof.
  unfold load_positions. rewrite <- list_fmap_compose.
  rewrite <- (list_fmap_id params) at 2. apply list_fmap_ext.
  by intros _ [[p a] b] _.
Qed.

Lemma PluginState_cases ps :
  PluginState ps → Forall unresolved ps ∨ consistent ps.
Proof.
  induction 1 as [ps Hun|ps st _ IH H]; [by left|right].
  destruct IH as [Hun|Hcons].
  - by apply (pass_consistent ps).
  - by rewrite (pass_fixed ps st).
Qed.

Lemma PluginState_pass_consistent ps st :
  PluginState ps → calculateBattlePositions ps = Ok st →
  consistent (positions st).
Proof.
  intros [Hun|Hcons]%PluginState_cases H.
  - by apply (pass_consistent ps).
  - by rewrite (pass_fixed ps st).
Qed.

(** ** Records whose chain ends in a root *)

Lemma chain_depth_functional ps index d d' :
  chain_depth ps index d → chain_depth ps index d' → d = d'.
Proof.
  intros H. revert d'.
  induction H as [index r Hl Hr|index r d Hl Hr _ IH]; intros d' H';
    inversion H' as [index' r' Hl' Hr'|index' r' d'' Hl' Hr' Hd]; subst;
    rewrite Hl in Hl'; injection Hl' as <-; try congruence.
  f_equal. by apply IH.
Qed.

Lemma AbsolutePosition_depth ps index ax ay :
  AbsolutePosition ps index ax ay → ∃ d, chain_depth ps index d.
Proof.
  induction 1 as [index r Hl Hr|index r ax ay Hl Hr _ [d IH]].
  - exists 0%nat. by eapply depth_root.
  - exists (S d). by eapply depth_child.
Qed.

Lemma config_lookup ps ps' j r r' :
  config <$> ps' = config <$> ps →
  ps' !! j = Some r' → ps !! j = Some r →
  is_root ps' r' = is_root ps r ∧ parent_slot r' = parent_slot r ∧
  x r' = x r ∧ y r' = y r.
Proof.
  intros Hcfg Hl' Hl.
  assert (length ps' = length ps) as Hlen.
  { by rewrite <- (length_fmap config ps'), Hcfg, length_fmap. }
  assert (config r' = config r) as Hc.
  { apply (f_equal (λ l, l !! j)) in Hcfg.
    rewrite !list_lookup_fmap, Hl, Hl' in Hcfg. cbn in Hcfg. congruence. }
  split; [by apply is_root_ext|].
  unfold parent_slot. unfold config in Hc. by injection Hc as -> -> ->.
Qed.

Lemma resolves_absolute ps index st st' :
  resolves index st st' → ∀ pending,
  well_formed st → (index < length (positions st))%nat →
  config <$> positions st = config <$> ps →
  (∀ s, s ∈ pending → is_visited st s = true) →
  deeper ps pending index →
  finished_absolute ps st pending →
  finished_absolute ps st' pending.
Proof.
  induction 1 as [index st Hv|index st curr Hv Hc Hr
                 |index st st' curr curr' parent Hv Hc Hr Hrec IH Hc' Hp];
    intros pending Hwf Hi Hcfg Hpend Hdeep Habs.
  - done.
  - intros j r ax ay Hl [Hvj Hnp] Hpos.
    rewrite lookup_assigned, positions_mark in Hl.
    rewrite is_visited_assigned, is_visited_mark in Hvj.
    case_decide as Hj.
    + subst j. rewrite Hc in Hl. injection Hl as <-.
      inversion Hpos as [? r0 Hl0 Hr0|? r0 ax' ay' Hl0 Hr0 _]; subst;
        destruct (config_lookup _ _ _ _ _ Hcfg Hc Hl0) as (Hr' & _ & Hx & Hy).
      * unfold anchor. cbn. by rewrite Hx, Hy.
      * congruence.
    + rewrite bool_decide_eq_false_2 in Hvj by done.
      by apply (Habs j r ax ay).
  - pose proof (is_root_false_lt _ _ Hr) as Hlt.
    pose proof (well_formed_mark _ _ Hwf Hi) as Hwf1.
    destruct (resolves_shape _ _ _ Hrec Hwf1 Hlt)
      as (Hlen & _ & Hcfg' & Hvp & Hmono & Hframe).
    rewrite positions_mark in Hlen, Hcfg'. rewrite Hcfg in Hcfg'.
    assert (is_visited (mark index st) index = true) as Hv1.
    { by rewrite is_visited_mark, bool_decide_eq_true_2. }
    assert (curr' = curr) as ->.
    { rewrite Hframe, positions_mark in Hc' by auto. congruence. }
    assert (index ∉ pending) as Hnp.
    { intros Hin. apply Hpend in Hin. congruence. }
    assert (finished_absolute ps st' (index :: pending)) as Habs'.
    { apply IH; try done.
      - intros s [->|Hs]%elem_of_cons; [done|].
        rewrite is_visited_mark, (Hpend s Hs). apply orb_true_r.
      - intros s d d' [->|Hs]%elem_of_cons Hd Hd'.
        + inversion Hd as [? r0 Hl0 Hr0|? r0 d0 Hl0 Hr0 Hd0]; subst;
            destruct (config_lookup _ _ _ _ _ Hcfg Hc Hl0) as (Hr' & Hps & _).
          * congruence.
          * rewrite <- Hps in Hd0.
            rewrite (chain_depth_functional _ _ _ _ Hd' Hd0). lia.
        + destruct (lookup_lt_is_Some_2 ps index) as [r0 Hl0].
          { by rewrite <- (length_fmap config ps), <- Hcfg, length_fmap. }
          destruct (config_lookup _ _ _ _ _ Hcfg Hc Hl0) as (Hr' & Hps & _).
          assert (chain_depth ps index (S d')) as Hdi.
          { eapply depth_child; [done|congruence|by rewrite <- Hps]. }
          pose proof (Hdeep s d (S d') Hs Hd Hdi). lia.
      - intros j r ax ay Hl Hf. rewrite positions_mark in Hl.
        apply finished_mark in Hf; [|done]. by apply Habs. }
    intros j r ax ay Hl [Hvj Hnpj] Hpos.
    rewrite lookup_assigned in Hl. rewrite is_visited_assigned in Hvj.
    case_decide as Hj.
    + subst j. rewrite Hc' in Hl. injection Hl as <-.
      inversion Hpos as [? r0 Hl0 Hr0|? r0 ax' ay' Hl0 Hr0 Hpos0]; subst;
        destruct (config_lookup _ _ _ _ _ Hcfg' Hc' Hl0) as (Hr' & Hps & Hx & Hy).
      * rewrite (is_root_length (positions st)) in Hr' by done. congruence.
      * rewrite <- Hps in Hpos0.
        destruct (AbsolutePosition_depth _ _ _ _ Hpos0) as [d Hd].
        assert (chain_depth ps index (S d)) as Hdi.
        { eapply depth_child; [done|done|by rewrite <- Hps]. }
        assert (finished st' (index :: pending) (parent_slot curr)) as Hfp.
        { split; [done|]. rewrite not_elem_of_cons. split.
          - intros Heq. rewrite Heq in Hd.
            pose proof (chain_depth_functional _ _ _ _ Hd Hdi). lia.
          - intros Hin. pose proof (Hdeep _ _ _ Hin Hd Hdi). lia. }
        pose proof (Habs' _ _ _ _ Hp Hfp Hpos0) as Hpa.
        unfold anchor in *. cbn. injection Hpa as -> ->.
        cbn. by rewrite Hx, Hy.
    + apply (Habs' j r ax ay Hl); [|done].
      split; [done|]. rewrite not_elem_of_cons. split; [congruence|done].
Qed.

Lemma resolves_all_absolute ps indices st st' :
  resolves_all indices st st' →
  well_formed st → Forall (λ index, index < length (positions st))%nat indices →
  config <$> positions st = config <$> ps →
  finished_absolute ps st [] → finished_absolute ps st' [].
Proof.
  induction 1 as [st|index rest st st' st'' Hres Hall IH];
    intros Hwf Hlt Hcfg Habs; [done|].
  apply Forall_cons in Hlt as [Hi Hlt].
  destruct (resolves_shape _ _ _ Hres Hwf Hi) as (Hlen & Hwf' & Hcfg' & _).
  apply IH; try done.
  - by rewrite Hlen.
  - by rewrite Hcfg'.
  - apply (resolves_absolute ps _ _ _ Hres []); try done.
    + intros s Hs. by apply elem_of_nil in Hs.
    + intros s d d' Hs. by apply elem_of_nil in Hs.
Qed.

Lemma pass_absolute ps st index ax ay :
  calculateBattlePositions ps = Ok st →
  AbsolutePosition ps index ax ay →
  ∃ r, positions st !! index = Some r ∧ anchor r = (JNum ax, JNum ay).
Proof.
  intros H Hpos.
  destruct (pass_shape ps st H) as (Hall & Hlen & _ & Hvis & _).
  assert (index < length ps)%nat as Hi.
  { inversion Hpos as [? r Hl _|? r ? ? Hl _ _]; by apply lookup_lt_Some in Hl. }
  destruct (lookup_lt_is_Some_2 (positions st) index) as [r Hl]; [lia|].
  exists r. split; [done|].
  apply (resolves_all_absolute ps) in Hall; try done.
  - apply (Hall index r ax ay); try done.
    split; [|apply not_elem_of_nil]. rewrite Hvis. by apply bool_decide_eq_true_2.
  - apply well_formed_initial.
  - apply Forall_forall. intros i Hin%elem_of_seq. cbn. lia.
  - intros j r' ? ? _ [Hf _]. by rewrite is_visited_initial in Hf.
Qed.

Lemma for_each_fuel_mono fuel fuel' indices st st' :
  (fuel ≤ fuel')%nat →
  for_each (recursiveCalcPos fuel) indices st = Ok (tt, st') →
  for_each (recursiveCalcPos fuel') indices st = Ok (tt, st').
Proof.
  intros Hle. revert st.
  induction indices as [|index rest IH]; intros st H; [done|].
  cbn [for_each] in *. unfold mbind, M_bind in *.
  destruct (recursiveCalcPos fuel index st) as [[[] st1]| |] eqn:H1; [|done..].
  rewrite (recursiveCalcPos_fuel_mono _ _ _ _ _ Hle H1). by apply IH.
Qed.

Lemma is_root_true ps r :
  is_root ps r = true ↔
  (parentIndex r < 0 ∨ Z.of_nat (length ps) ≤ parentIndex r)%Z.
Proof.
  unfold is_root, no_parent.
  rewrite orb_true_iff, Z.ltb_lt, Z.geb_leb, Z.leb_le. done.
Qed.

Lemma setActorHome_position ps index :
  (0 ≤ index < Z.of_nat (length ps))%Z →
  ∃ position, ps !! Z.to_nat index = Some position ∧
              setActorHome ps index = SetHome (realX position) (realY position).
Proof.
  unfold setActorHome, array_get. intros Hin.
  destruct (Z.ltb_spec index 0) as [Hneg|Hpos]; [lia|].
  destruct (lookup_lt_is_Some_2 ps (Z.to_nat index)) as [position Hl]; [lia|].
  exists position. by rewrite Hl.
Qed.

(** ** Exact positions *)

Lemma safe_integerb_spec z : safe_integerb z = true ↔ safe_integer z.
Proof.
  unfold safe_integerb, safe_integer.
  by rewrite andb_true_iff, !Z.leb_le.
Qed.

Lemma ExactPosition_AbsolutePosition ps index ax ay :
  ExactPosition ps index ax ay → AbsolutePosition ps index ax ay.
Proof.
  induction 1; [by apply abs_root|by apply abs_child].
Qed.

Lemma exact_position_sound fuel ps index ax ay :
  exact_position fuel ps index = Some (ax, ay) → ExactPosition ps index ax ay.
Proof.
  revert index ax ay. induction fuel as [|fuel IH]; intros index ax ay H;
    [discriminate|].
  cbn [exact_position] in H.
  destruct (ps !! index) as [r|] eqn:Hl; [|discriminate].
  destruct (is_root ps r) eqn:Hr.
  - destruct (safe_integerb (x r) && safe_integerb (y r)) eqn:Hs; [|discriminate].
    injection H as <- <-.
    apply andb_true_iff in Hs as [Hx%safe_integerb_spec Hy%safe_integerb_spec].
    by apply exact_root.
  - destruct (exact_position fuel ps (parent_slot r)) as [[px py]|] eqn:Hp;
      [|discriminate].
    destruct (_ && _) eqn:Hs in H; [|discriminate].
    injection H as <- <-.
    apply andb_true_iff in Hs as [Hs Hsy%safe_integerb_spec].
    apply andb_true_iff in Hs as [Hs Hsx%safe_integerb_spec].
    apply andb_true_iff in Hs as [Hx%safe_integerb_spec Hy%safe_integerb_spec].
    apply exact_child; auto.
Qed.

Lemma AbsolutePosition_functional ps index ax ay bx by_ :
  AbsolutePosition ps index ax ay → AbsolutePosition ps index bx by_ →
  ax = bx ∧ ay = by_.
Proof.
  intros H. revert bx by_.
  induction H as [index r Hl Hr|index r ax ay Hl Hr _ IH]; intros bx by_ H';
    inversion H' as [? r' Hl' Hr'|? r' ax' ay' Hl' Hr' Hp']; subst;
    rewrite Hl in Hl'; injection Hl' as <-; try congruence; try done.
  by destruct (IH _ _ Hp') as [-> ->].
Qed.

(** ** The values in the trace *)

Lemma assigned_values_app k j tr1 tr2 :
  assigned_values k j (tr1 ++ tr2) =
  assigned_values k j tr1 ++ assigned_values k j tr2.
Proof.
  induction tr1 as [|e tr1 IH]; [done|]. cbn.
  destruct k, e; try done; by destruct (Nat.eqb _ _); rewrite IH.
Qed.

Lemma assigned_values_other k j index tr vx vy :
  index ≠ j →
  assigned_values k j (tr ++ [SetRealX index vx] ++ [SetRealY index vy]) =
  assigned_values k j tr.
Proof.
  intros Hne%Nat.eqb_neq. rewrite assigned_values_app. cbn.
  destruct k; rewrite ?Hne; by rewrite app_nil_r.
Qed.

Lemma assigned_values_visit k j index tr :
  assigned_values k j (tr ++ [Visit index]) = assigned_values k j tr.
Proof. rewrite assigned_values_app. cbn. destruct k; by rewrite app_nil_r. Qed.

Lemma assigned_values_own index tr vx vy :
  assigned_values KSetRealX index (tr ++ [SetRealX index vx] ++ [SetRealY index vy]) =
    assigned_values KSetRealX index tr ++ [vx] ∧
  assigned_values KSetRealY index (tr ++ [SetRealX index vx] ++ [SetRealY index vy]) =
    assigned_values KSetRealY index tr ++ [vy].
Proof. rewrite !assigned_values_app. cbn. by rewrite Nat.eqb_refl. Qed.

Lemma trace_assigned index vx vy st :
  trace (assign_realY index vy (assign_realX index vx st)) =
  trace st ++ [SetRealX index vx] ++ [SetRealY index vy].
Proof. cbn. by rewrite <- app_assoc. Qed.

(** A call appends, for every record it is the first to visit, the
    value the record then holds, and nothing for any other record. *)
Lemma resolves_values index st st' :
  resolves index st st' →
  well_formed st → (index < length (positions st))%nat →
  ∀ j,
    (is_visited st j = true ∨ is_visited st' j = false →
     ∀ k, assigned_values k j (trace st') = assigned_values k j (trace st)) ∧
    (is_visited st j = false → is_visited st' j = true →
     ∃ r, positions st' !! j = Some r ∧
          assigned_values KSetRealX j (trace st') =
            assigned_values KSetRealX j (trace st) ++ [realX r] ∧
          assigned_values KSetRealY j (trace st') =
            assigned_values KSetRealY j (trace st) ++ [realY r]).
Proof.
  induction 1 as [index st Hv|index st curr Hv Hc Hr
                 |index st st' curr curr' parent Hv Hc Hr Hrec IH Hc' Hp];
    intros Hwf Hi j.
  - split; [done|congruence].
  - rewrite is_visited_assigned, is_visited_mark, trace_assigned, lookup_assigned.
    rewrite positions_mark.
    destruct (decide (index = j)) as [<-|Hj].
    + rewrite bool_decide_eq_true_2 by done. cbn [orb]. split.
      * intros [?|?]; congruence.
      * intros _ _. rewrite Hc. eexists. split; [done|]. cbn [realX realY resolved_as fmap option_fmap option_map].
        destruct (assigned_values_own index (trace (mark index st))
                    (JNum (x curr)) (JNum (y curr))) as [-> ->].
        cbn [trace mark]. by rewrite !assigned_values_visit.
    + rewrite bool_decide_eq_false_2 by done. cbn [orb]. split.
      * intros _ k. rewrite assigned_values_other by done.
        cbn [trace mark]. by rewrite assigned_values_visit.
      * congruence.
  - pose proof (is_root_false_lt _ _ Hr) as Hlt.
    pose proof (well_formed_mark _ _ Hwf Hi) as Hwf1.
    destruct (resolves_shape _ _ _ Hrec Hwf1 Hlt)
      as (_ & _ & _ & _ & Hmono & _).
    destruct (IH Hwf1 Hlt j) as [IH1 IH2].
    rewrite is_visited_assigned, trace_assigned, lookup_assigned.
    rewrite is_visited_mark in IH1, IH2. cbn [trace mark] in IH1, IH2.
    destruct (decide (index = j)) as [<-|Hj].
    + rewrite bool_decide_eq_true_2 in IH1 by done. cbn [orb] in IH1.
      split; [intros [?|Hn]; [congruence|]|].
      * rewrite (Hmono index) in Hn; [done|].
        by rewrite is_visited_mark, bool_decide_eq_true_2.
      * intros _ _. rewrite Hc'. eexists. split; [done|].
        cbn [realX realY resolved_as].
        destruct (assigned_values_own index (trace st')
                    (js_add (x curr') (realX parent))
                    (js_add (y curr') (realY parent))) as [-> ->].
        rewrite !IH1 by auto. by rewrite !assigned_values_visit.
    + rewrite bool_decide_eq_false_2 in IH1, IH2 by done. cbn [orb] in IH1, IH2.
      split.
      * intros Hcase k. rewrite assigned_values_other by done.
        rewrite IH1 by done. by rewrite assigned_values_visit.
      * intros Hv0 Hv1. destruct (IH2 Hv0 Hv1) as (r & Hl & HX & HY).
        exists r. rewrite !assigned_values_other by done.
        rewrite HX, HY, !assigned_values_visit. done.
Qed.

Lemma resolves_trace_matches index st st' :
  resolves index st st' →
  well_formed st → (index < length (positions st))%nat →
  trace_matches st → trace_matches st'.
Proof.
  intros Hres Hwf Hi Hinv j. specialize (Hinv j).
  destruct (resolves_shape _ _ _ Hres Hwf Hi) as (_ & _ & _ & _ & Hmono & Hframe).
  destruct (resolves_values _ _ _ Hres Hwf Hi j) as [H1 H2].
  destruct (is_visited st j) eqn:Hv0.
  - rewrite (Hmono j Hv0). destruct Hinv as (r & Hl & HX & HY).
    exists r. rewrite Hframe, !H1 by auto. done.
  - destruct Hinv as [HX HY]. destruct (is_visited st' j) eqn:Hv1.
    + destruct (H2 eq_refl eq_refl) as (r & Hl & HX' & HY').
      exists r. by rewrite HX', HY', HX, HY.
    + by rewrite !H1 by auto.
Qed.

Lemma resolves_all_trace_matches indices st st' :
  resolves_all indices st st' →
  well_formed st → Forall (λ index, index < length (positions st))%nat indices →
  trace_matches st → trace_matches st'.
Proof.
  induction 1 as [st|index rest st st' st'' Hres Hall IH];
    intros Hwf Hlt Hinv; [done|].
  apply Forall_cons in Hlt as [Hi Hlt].
  destruct (resolves_shape _ _ _ Hres Hwf Hi) as (Hlen & Hwf' & _).
  apply IH; [done|by rewrite Hlen|].
  by apply (resolves_trace_matches index st).
Qed.

(** The values in the trace of a pass are the values the records end
    with. *)
Lemma pass_trace_matches ps st index r :
  calculateBattlePositions ps = Ok st →
  positions st !! index = Some r →
  assigned_values KSetRealX index (trace st) = [realX r] ∧
  assigned_values KSetRealY index (trace st) = [realY r].
Proof.
  intros H Hl. destruct (pass_shape ps st H) as (Hall & Hlen & _ & Hvis & _).
  assert (trace_matches st) as Hm.
  { apply (resolves_all_trace_matches _ _ _ Hall).
    - apply well_formed_initial.
    - apply Forall_forall. intros i Hi%elem_of_seq. cbn. lia.
    - intros j. by rewrite is_visited_initial. }
  specialize (Hm index). rewrite Hvis, bool_decide_eq_true_2 in Hm.
  - destruct Hm as (r' & Hl' & HX & HY). by assert (r' = r) as -> by congruence.
  - apply lookup_lt_Some in Hl. lia.
Qed.

(** * Properties of the specification *)

(** C1.  Two records that name each other as parent, loaded from the
    parameters with any offsets: the pass returns, and both records end
    with [NaN] in [realX] and [realY].  The record of index 0, which the
    loop reaches first, is not placed at its own offset, although the
    comment in [calculateBattlePositions] says that the member with the
    lowest index is calculated relative to (0,0).  A record that is its
    own parent ends with [NaN] as well. *)
Theorem mutual_parents_resolve_to_NaN x0 y0 x1 y1 :
  (∃ st, calculateBattlePositions [loaded 1 x0 y0; loaded 0 x1 y1] = Ok st ∧
         anchor <$> positions st = [(JNaN, JNaN); (JNaN, JNaN)]) ∧
  (∃ st, calculateBattlePositions [loaded 0 x0 y0] = Ok st ∧
         anchor <$> positions st = [(JNaN, JNaN)]).
Proof. split; eexists; split; vm_compute; reflexivity. Qed.

(** C2.  A record whose parent chain ends in a record without a parent
    is resolved to the sum of the offsets along the chain; when it has a
    parent, its [realX] is its [x] plus the [realX] of the parent as the
    pass left it, and likewise for [realY].  The offsets and the sums
    formed along the chain are safe integers, so that the sums of the
    resolver are exact.  This holds whatever [realX] and [realY] held
    before the pass. *)
Theorem chain_resolves_to_parent_plus_offset ps index ax ay :
  ExactPosition ps index ax ay →
  ∃ st r,
    calculateBattlePositions ps = Ok st ∧
    positions st !! index = Some r ∧
    realX r = JNum ax ∧ realY r = JNum ay ∧
    (is_root (positions st) r = false →
     ∃ parent, positions st !! parent_slot r = Some parent ∧
               realX r = js_add (x r) (realX parent) ∧
               realY r = js_add (y r) (realY parent)).
Proof.
  intros Hpos%ExactPosition_AbsolutePosition.
  destruct (calculateBattlePositions_returns ps) as (st & H & _).
  destruct (pass_shape ps st H) as (_ & Hlen & Hcfg & _).
  destruct (pass_absolute ps st index ax ay H Hpos) as (r & Hl & Ha).
  exists st, r. unfold anchor in Ha. injection Ha as Hx Hy.
  split_and!; try done. intros Hr.
  inversion Hpos as [? r0 Hl0 Hr0|? r0 ax' ay' Hl0 Hr0 Hpos0]; subst;
    destruct (config_lookup _ _ _ _ _ Hcfg Hl Hl0) as (Hr' & Hps & Hx0 & Hy0).
  - congruence.
  - destruct (pass_absolute ps st _ ax' ay' H Hpos0) as (parent & Hp & Hpa).
    unfold anchor in Hpa. injection Hpa as Hpx Hpy.
    exists parent. rewrite Hps, Hx, Hy, Hpx, Hpy, Hx0, Hy0. done.
Qed.

(** C3.  A record whose [parentIndex] is negative, or at least the
    number of records, is resolved to its own offset. *)
Theorem invalid_parent_resolves_to_own_offset ps index r :
  ps !! index = Some r →
  (parentIndex r < 0 ∨ Z.of_nat (length ps) ≤ parentIndex r)%Z →
  ∃ st r',
    calculateBattlePositions ps = Ok st ∧
    positions st !! index = Some r' ∧
    realX r' = JNum (x r) ∧ realY r' = JNum (y r).
Proof.
  intros Hl Hinv%is_root_true.
  destruct (calculateBattlePositions_returns ps) as (st & H & _).
  destruct (pass_absolute ps st index (x r) (y r) H) as (r' & Hl' & Ha).
  { by apply abs_root. }
  exists st, r'. unfold anchor in Ha. by injection Ha as -> ->.
Qed.

(** C4.  The pass returns for every [positions] array, the empty one
    and cyclic ones included: it neither throws nor exhausts the budget
    of [positions.length + 1] nested calls, any larger budget gives the
    same result, and no index is marked visited more than once. *)
Theorem calculateBattlePositions_terminates ps :
  ∃ st,
    calculateBattlePositions ps = Ok st ∧
    (∀ extra,
       for_each (recursiveCalcPos (S (length ps) + extra))
                (seq 0 (length ps)) (initial ps) = Ok (tt, st)) ∧
    (∀ index, (occurrences KVisit index (trace st) ≤ 1)%nat).
Proof.
  destruct (calculateBattlePositions_returns ps) as (st & H & _).
  exists st. split_and!; [done|..].
  - intros extra. apply (for_each_fuel_mono (S (length ps))); [lia|].
    unfold calculateBattlePositions in H. fold (initial ps) in H.
    destruct (for_each _ _ _) as [[[] st0]| |]; congruence.
  - intros index. destruct (pass_shape ps st H) as (_ & _ & _ & _ & Htr).
    rewrite Htr. case_bool_decide; lia.
Qed.

(** C5.  On the [positions] array as loaded, or as earlier battles left
    it, a second pass right after a pass returns and leaves every record
    as the first pass left it.  The [visited] array of the first pass
    plays no part in the second, which allocates its own. *)
Theorem calculateBattlePositions_idempotent ps :
  PluginState ps →
  ∃ st1 st2,
    calculateBattlePositions ps = Ok st1 ∧
    calculateBattlePositions (positions st1) = Ok st2 ∧
    positions st2 = positions st1.
Proof.
  intros Hps.
  destruct (calculateBattlePositions_returns ps) as (st1 & H1 & _).
  destruct (calculateBattlePositions_returns (positions st1)) as (st2 & H2 & _).
  exists st1, st2. split_and!; [done|done|].
  apply pass_fixed; [|done]. by apply (PluginState_pass_consistent ps).
Qed.


(** C7.  The default parameters resolve to (600,280), (632,328),
    (664,376), (696,424); on the empty array the pass returns with
    nothing visited and nothing assigned. *)
Theorem default_positions_resolved :
  (∃ st, calculateBattlePositions default_positions = Ok st ∧
         anchor <$> positions st =
         [(JNum 600, JNum 280); (JNum 632, JNum 328);
          (JNum 664, JNum 376); (JNum 696, JNum 424)]) ∧
  calculateBattlePositions [] = Ok (mkState [] [] []).
Proof. split; [eexists; split|]; vm_compute; reflexivity. Qed.

(** C8.  The pass keeps the number of records and the [parentIndex],
    [x] and [y] of each, and it assigns [realX] once and [realY] once
    for every index of the array and never for another index; the value
    of that one assignment is the value the record ends with. *)
Theorem pass_writes_only_derived_fields ps :
  ∃ st,
    calculateBattlePositions ps = Ok st ∧
    config <$> positions st = config <$> ps ∧
    (∀ index,
      occurrences KSetRealX index (trace st) =
        (if bool_decide (index < length ps)%nat then 1%nat else 0%nat) ∧
      occurrences KSetRealY index (trace st) =
        (if bool_decide (index < length ps)%nat then 1%nat else 0%nat)) ∧
    (∀ index r,
      positions st !! index = Some r →
      assigned_values KSetRealX index (trace st) = [realX r] ∧
      assigned_values KSetRealY index (trace st) = [realY r]).
Proof.
  destruct (calculateBattlePositions_returns ps) as (st & H & _).
  destruct (pass_shape ps st H) as (_ & _ & Hcfg & _ & Htr).
  exists st. split_and!; [done|done|..].
  - intros index. by rewrite !Htr.
  - intros index r Hl. by apply (pass_trace_matches ps).
Qed.

(** C9.  [setActorHome] on an index outside the array hands the call
    to the host's own [setActorHome] with that index, and does not call
    [setHome] with (0, 0); on an index of the array it calls [setHome]
    with the [realX] and [realY] of the record, not the host. *)
Theorem setActorHome_falls_back_outside_array ps index :
  ((index < 0 ∨ Z.of_nat (length ps) ≤ index)%Z →
   setActorHome ps index = HostSetActorHome index ∧
   setActorHome ps index ≠ SetHome (JNum 0) (JNum 0)) ∧
  ((0 ≤ index < Z.of_nat (length ps))%Z →
   ∃ position, ps !! Z.to_nat index = Some position ∧
               setActorHome ps index =
               SetHome (realX position) (realY position)).
Proof.
  split.
  - unfold setActorHome, array_get.
    intros Hout. destruct (Z.ltb_spec index 0) as [Hneg|Hpos]; [done|].
    rewrite (lookup_ge_None_2 ps (Z.to_nat index)) by lia. done.
  - apply setActorHome_position.
Qed.

(** C10.  Before the first pass [setActorHome] already decides by the
    index alone: on an index of the array [setHome] receives the two
    [undefined] values of the record and the host's [setActorHome] is
    not called; on any other index the host's [setActorHome] is. *)
Theorem setActorHome_before_first_pass ps index :
  Forall unresolved ps →
  setActorHome ps index =
  if decide (0 ≤ index < Z.of_nat (length ps))%Z
  then SetHome JUndefined JUndefined
  else HostSetActorHome index.
Proof.
  intros Hun. case_decide as Hin.
  - destruct (setActorHome_position ps index Hin) as (position & Hl & ->).
    pose proof (Forall_lookup_1 _ _ _ _ Hun Hl) as Hp.
    unfold unresolved, anchor in Hp. by injection Hp as -> ->.
  - unfold setActorHome, array_get.
    destruct (Z.ltb_spec index 0) as [Hneg|Hpos]; [done|].
    rewrite (lookup_ge_None_2 ps (Z.to_nat index)) by lia. done.
Qed.

(** * Instances on concrete parameters *)

Lemma chain_resolves_to_parent_plus_offset_witness :
  ExactPosition default_positions 3 696 424 ∧
  ∃ st r,
    calculateBattlePositions default_positions = Ok st ∧
    positions st !! 3%nat = Some r ∧
    realX r = JNum 696 ∧ realY r = JNum 424 ∧
    (is_root (positions st) r = false →
     ∃ parent, positions st !! parent_slot r = Some parent ∧
               realX r = js_add (x r) (realX parent) ∧
               realY r = js_add (y r) (realY parent)).
Proof.
  assert (ExactPosition default_positions 3 696 424) as H.
  { apply (exact_position_sound 4). reflexivity. }
  split; [exact H|].
  exact (chain_resolves_to_parent_plus_offset default_positions 3 696 424 H).
Defined.

Lemma invalid_parent_resolves_to_own_offset_witness :
  ∃ st r',
    calculateBattlePositions default_positions = Ok st ∧
    positions st !! 0%nat = Some r' ∧
    realX r' = JNum 600 ∧ realY r' = JNum 280.
Proof.
  apply (invalid_parent_resolves_to_own_offset default_positions 0
           (loaded (-1) 600 280)).
  - reflexivity.
  - left. reflexivity.
Defined.

Lemma calculateBattlePositions_idempotent_witness :
  ∃ st1 st2,
    calculateBattlePositions default_positions = Ok st1 ∧
    calculateBattlePositions (positions st1) = Ok st2 ∧
    positions st2 = positions st1.
Proof.
  apply (calculateBattlePositions_idempotent default_positions).
  apply plugin_loaded. repeat constructor.
Defined.



Lemma setActorHome_falls_back_outside_array_witness :
  (setActorHome default_positions 7 = HostSetActorHome 7 ∧
   setActorHome default_positions 7 ≠ SetHome (JNum 0) (JNum 0)) ∧
  (∃ position, default_positions !! Z.to_nat 1 = Some position ∧
               setActorHome default_positions 1 =
               SetHome (realX position) (realY position)).
Proof.
  split.
  - apply (proj1 (setActorHome_falls_back_outside_array default_positions 7)).
    right. cbn. lia.
  - apply (proj2 (setActorHome_falls_back_outside_array default_positions 1)).
    cbn. lia.
Defined.

Lemma setActorHome_before_first_pass_witness :
  setActorHome default_positions 2 = SetHome JUndefined JUndefined ∧
  setActorHome default_positions 7 = HostSetActorHome 7 ∧
  setActorHome default_positions (-1) = HostSetActorHome (-1).
Proof.
  assert (Forall unresolved default_positions) as H by repeat constructor.
  split_and!.
  - apply (setActorHome_before_first_pass default_positions 2 H).
  - apply (setActorHome_before_first_pass default_positions 7 H).
  - apply (setActorHome_before_first_pass default_positions (-1) H).
Defined.

(** Idempotence is a property of the arrays the plugin can hold.  Had a
    record that is its own parent a number left in [realX], every pass
    would add the offset once more. *)
Example stale_number_in_a_cycle_accumulates :
  let ps := [mkBattlerPosition 0 10 10 (JNum 5) (JNum 5)] in
  (∃ st, calculateBattlePositions ps = Ok st ∧
         anchor <$> positions st = [(JNum 15, JNum 15)]) ∧
  ¬ PluginState ps.
Proof.
  split; [eexists; split; vm_compute; reflexivity|].
  intros [Hun|Hcons]%PluginState_cases.
  - apply Forall_cons in Hun as [Hun _]. discriminate Hun.
  - specialize (Hcons 0%nat _ eq_refl). cbn in Hcons.
    destruct Hcons as (parent & [= <-] & Heq). discriminate Heq.
Qed.

(** * Further properties of the resolver *)

Lemma js_add_assigned a v : js_add a v ≠ JUndefined.
Proof. by destruct v. Qed.

Lemma js_add_not_number a v : not_number v → js_add a v = JNaN.
Proof. destruct v as [| |z]; [done|done|]. intros H. by destruct (H z). Qed.

(** A call assigns both fields of every record it is the first to
    visit. *)
Lemma resolves_assigns index st st' :
  resolves index st st' →
  well_formed st → (index < length (positions st))%nat →
  ∀ j r, positions st' !! j = Some r →
    is_visited st j = false → is_visited st' j = true → assigned r.
Proof.
  induction 1 as [index st Hv|index st curr Hv Hc Hr
                 |index st st' curr curr' parent Hv Hc Hr Hrec IH Hc' Hp];
    intros Hwf Hi j r Hl Hvj Hvj'.
  - congruence.
  - rewrite lookup_assigned, positions_mark in Hl.
    rewrite is_visited_assigned, is_visited_mark in Hvj'.
    case_decide as Hj.
    + subst j. rewrite Hc in Hl. injection Hl as <-. by split.
    + rewrite bool_decide_eq_false_2 in Hvj' by done. cbn in Hvj'. congruence.
  - rewrite lookup_assigned in Hl. rewrite is_visited_assigned in Hvj'.
    case_decide as Hj.
    + subst j. rewrite Hc' in Hl. injection Hl as <-.
      split; apply js_add_assigned.
    + apply (IH (well_formed_mark _ _ Hwf Hi) (is_root_false_lt _ _ Hr) j r);
        try done.
      rewrite is_visited_mark, bool_decide_eq_false_2 by done. done.
Qed.

Lemma resolves_all_assigns indices st st' :
  resolves_all indices st st' →
  well_formed st → Forall (λ index, index < length (positions st))%nat indices →
  (∀ j r, positions st !! j = Some r → is_visited st j = true → assigned r) →
  ∀ j r, positions st' !! j = Some r → is_visited st' j = true → assigned r.
Proof.
  induction 1 as [st|index rest st st' st'' Hres Hall IH];
    intros Hwf Hlt Hinv; [done|].
  apply Forall_cons in Hlt as [Hi Hlt].
  destruct (resolves_shape _ _ _ Hres Hwf Hi)
    as (Hlen & Hwf' & _ & _ & _ & Hframe).
  apply IH; [done|by rewrite Hlen|].
  intros j r Hl Hvj. destruct (is_visited st j) eqn:Hv0.
  - rewrite Hframe in Hl by auto. by apply (Hinv j r).
  - by apply (resolves_assigns _ _ _ Hres Hwf Hi j r).
Qed.

Lemma pass_assigned ps st j r :
  calculateBattlePositions ps = Ok st →
  positions st !! j = Some r → assigned r.
Proof.
  intros H Hl. destruct (pass_shape ps st H) as (Hall & Hlen & _ & Hvis & _).
  apply (resolves_all_assigns _ _ _ Hall) with (j := j); try done.
  - apply well_formed_initial.
  - apply Forall_forall. intros i Hi%elem_of_seq. cbn. lia.
  - intros j' r' _ Hv. by rewrite is_visited_initial in Hv.
  - rewrite Hvis. apply bool_decide_eq_true_2.
    apply lookup_lt_Some in Hl. lia.
Qed.

(** The absolute positions are a matter of the configured fields
    alone. *)
Lemma AbsolutePosition_config ps ps' index ax ay :
  config <$> ps' = config <$> ps →
  AbsolutePosition ps index ax ay → AbsolutePosition ps' index ax ay.
Proof.
  intros Hcfg.
  assert (length ps' = length ps) as Hlen.
  { by rewrite <- (length_fmap config ps'), Hcfg, length_fmap. }
  induction 1 as [index r Hl Hr|index r ax ay Hl Hr _ IH].
  - destruct (lookup_lt_is_Some_2 ps' index) as [r' Hl'].
    { apply lookup_lt_Some in Hl. lia. }
    destruct (config_lookup _ _ _ _ _ Hcfg Hl' Hl) as (Hr' & _ & <- & <-).
    apply abs_root; [done|congruence].
  - destruct (lookup_lt_is_Some_2 ps' index) as [r' Hl'].
    { apply lookup_lt_Some in Hl. lia. }
    destruct (config_lookup _ _ _ _ _ Hcfg Hl' Hl) as (Hr' & Hps & <- & <-).
    apply abs_child; [done|congruence|by rewrite Hps].
Qed.

Lemma anchored_config ps ps' index :
  config <$> ps' = config <$> ps → anchored ps index ↔ anchored ps' index.
Proof.
  intros Hcfg. split; intros (ax & ay & H); exists ax, ay;
    by eapply AbsolutePosition_config.
Qed.

Lemma resolves_unanchored ps index st st' :
  resolves index st st' →
  well_formed st → (index < length (positions st))%nat →
  config <$> positions st = config <$> ps →
  unanchored_not_number ps st → unanchored_not_number ps st'.
Proof.
  induction 1 as [index st Hv|index st curr Hv Hc Hr
                 |index st st' curr curr' parent Hv Hc Hr Hrec IH Hc' Hp];
    intros Hwf Hi Hcfg Hinv.
  - done.
  - intros j r Hl Hna. rewrite lookup_assigned, positions_mark in Hl.
    case_decide as Hj; [|by apply (Hinv j r)].
    subst j. destruct Hna. exists (x curr), (y curr).
    apply (AbsolutePosition_config (positions st)); [done|].
    by apply abs_root.
  - pose proof (is_root_false_lt _ _ Hr) as Hlt.
    pose proof (well_formed_mark _ _ Hwf Hi) as Hwf1.
    destruct (resolves_shape _ _ _ Hrec Hwf1 Hlt)
      as (Hlen & _ & Hcfg' & _ & _ & Hframe).
    rewrite positions_mark in Hlen, Hcfg'.
    specialize (IH Hwf1 Hlt Hcfg Hinv).
    assert (curr' = curr) as ->.
    { rewrite Hframe, positions_mark in Hc'; [congruence|left].
      by rewrite is_visited_mark, bool_decide_eq_true_2. }
    intros j r Hl Hna. rewrite lookup_assigned in Hl.
    case_decide as Hj; [|by apply (IH j r)].
    subst j. rewrite Hc' in Hl. injection Hl as <-. cbn.
    assert (¬ anchored ps (parent_slot curr)) as Hnp.
    { intros (ax & ay & Hpos). destruct Hna. exists (x curr + ax)%Z, (y curr + ay)%Z.
      apply (AbsolutePosition_config (positions st)); [done|].
      apply abs_child; [done|done|].
      by apply (AbsolutePosition_config ps). }
    destruct (IH _ _ Hp Hnp) as [Hx Hy].
    rewrite !js_add_not_number by done. by split.
Qed.

Lemma resolves_all_unanchored ps indices st st' :
  resolves_all indices st st' →
  well_formed st → Forall (λ index, index < length (positions st))%nat indices →
  config <$> positions st = config <$> ps →
  unanchored_not_number ps st → unanchored_not_number ps st'.
Proof.
  induction 1 as [st|index rest st st' st'' Hres Hall IH];
    intros Hwf Hlt Hcfg Hinv; [done|].
  apply Forall_cons in Hlt as [Hi Hlt].
  destruct (resolves_shape _ _ _ Hres Hwf Hi) as (Hlen & Hwf' & Hcfg' & _).
  apply IH; [done|by rewrite Hlen|by rewrite Hcfg'|].
  by apply (resolves_unanchored ps _ _ _ Hres).
Qed.

Lemma pass_unanchored ps st :
  unanchored_not_number ps (initial ps) →
  calculateBattlePositions ps = Ok st →
  unanchored_not_number ps st.
Proof.
  intros Hinv H. destruct (pass_shape ps st H) as (Hall & _).
  apply (resolves_all_unanchored ps _ _ _ Hall); try done.
  - apply well_formed_initial.
  - apply Forall_forall. intros i Hi%elem_of_seq. cbn. lia.
Qed.

Lemma PluginState_unanchored ps :
  PluginState ps → unanchored_not_number ps (initial ps).
Proof.
  induction 1 as [ps Hun|ps st _ IH H].
  - intros j r Hl _. cbn in Hl.
    pose proof (Forall_lookup_1 _ _ _ _ Hun Hl) as Hr.
    unfold unresolved, anchor in Hr. injection Hr as -> ->. by split.
  - destruct (pass_shape ps st H) as (_ & _ & Hcfg & _).
    intros j r Hl Hna. cbn in Hl.
    apply (pass_unanchored ps st IH H j r Hl).
    by rewrite (anchored_config ps (positions st)).
Qed.

Lemma pass_unanchored_NaN ps st index r :
  PluginState ps → calculateBattlePositions ps = Ok st →
  positions st !! index = Some r → ¬ anchored ps index →
  realX r = JNaN ∧ realY r = JNaN.
Proof.
  intros Hps H Hl Hna.
  destruct (pass_unanchored ps st (PluginState_unanchored ps Hps) H index r Hl Hna)
    as [Hx Hy].
  destruct (pass_assigned ps st index r H Hl) as [Hx' Hy'].
  unfold not_number in *.
  split; [destruct (realX r) as [| |z]|destruct (realY r) as [| |z]];
    try done; [by destruct (Hx z)|by destruct (Hy z)].
Qed.

Lemma reaches_depth ps index j :
  reaches ps index j →
  ∀ d, chain_depth ps index d → ∃ d', chain_depth ps j d' ∧ (d' < d)%nat.
Proof.
  induction 1 as [index r Hl Hr|index r j Hl Hr _ IH]; intros d Hd;
    inversion Hd as [? r0 Hl0 Hr0|? r0 d0 Hl0 Hr0 Hd0]; subst;
    rewrite Hl in Hl0; injection Hl0 as <-; try congruence.
  - exists d0. split; [done|lia].
  - destruct (IH d0 Hd0) as (d' & Hd' & Hlt). exists d'. split; [done|lia].
Qed.

Lemma reaches_anchored ps index j :
  reaches ps index j → anchored ps index → anchored ps j.
Proof.
  induction 1 as [index r Hl Hr|index r j Hl Hr _ IH]; intros (ax & ay & Hpos);
    inversion Hpos as [? r0 Hl0 Hr0|? r0 ax' ay' Hl0 Hr0 Hpos0]; subst;
    rewrite Hl in Hl0; injection Hl0 as <-; try congruence.
  - by exists ax', ay'.
  - apply IH. by exists ax', ay'.
Qed.

(** A record that is reached from itself has no absolute position. *)
Lemma cycle_not_anchored ps j : reaches ps j j → ¬ anchored ps j.
Proof.
  intros Hcycle (ax & ay & Hpos).
  destruct (AbsolutePosition_depth _ _ _ _ Hpos) as [d Hd].
  destruct (reaches_depth _ _ _ Hcycle d Hd) as (d' & Hd' & Hlt).
  pose proof (chain_depth_functional _ _ _ _ Hd Hd'). lia.
Qed.

Lemma reaches_lookup ps index j :
  reaches ps index j → (index < length ps)%nat.
Proof. intros [? r Hl _|? r ? Hl _ _]; by apply lookup_lt_Some in Hl. Qed.

Lemma AbsolutePosition_app ps extra index ax ay :
  parents_in_range ps →
  AbsolutePosition ps index ax ay → AbsolutePosition (ps ++ extra) index ax ay.
Proof.
  intros Hrange.
  induction 1 as [index r Hl Hr|index r ax ay Hl Hr _ IH];
    pose proof (Forall_lookup_1 _ _ _ _ Hrange Hl) as Hlt; cbn in Hlt.
  - apply abs_root; [by apply lookup_app_l_Some|].
    apply is_root_true in Hr. apply is_root_true. lia.
  - apply abs_child; [by apply lookup_app_l_Some| |done].
    destruct (is_root (ps ++ extra) r) eqn:Hr'; [|done].
    apply is_root_true in Hr'. rewrite length_app in Hr'.
    assert (¬ (parentIndex r < 0 ∨ Z.of_nat (length ps) ≤ parentIndex r)%Z)
      as Hin by (rewrite <- is_root_true; congruence).
    lia.
Qed.

Lemma is_root_move_root n dx dy ps r :
  is_root ps (move_root n dx dy r) = is_root ps r.
Proof. unfold move_root, is_root. by destruct (no_parent _ (parentIndex r)). Qed.

Lemma AbsolutePosition_move_roots ps dx dy index ax ay :
  AbsolutePosition ps index ax ay →
  AbsolutePosition (move_roots dx dy ps) index (ax + dx) (ay + dy).
Proof.
  assert (∀ r, is_root (move_roots dx dy ps) r = is_root ps r) as Hroot.
  { intros r. apply is_root_length. unfold move_roots. apply length_fmap. }
  induction 1 as [index r Hl Hr|index r ax ay Hl Hr _ IH].
  - assert (move_roots dx dy ps !! index =
            Some (mkBattlerPosition (parentIndex r) (x r + dx) (y r + dy)
                                    (realX r) (realY r))) as Hl'.
    { unfold move_roots. rewrite list_lookup_fmap, Hl. cbn.
      unfold move_root. unfold is_root in Hr. by rewrite Hr. }
    apply (abs_root _ _ _ Hl'). by rewrite Hroot.
  - assert (move_roots dx dy ps !! index = Some r) as Hl'.
    { unfold move_roots. rewrite list_lookup_fmap, Hl. cbn.
      unfold move_root. unfold is_root in Hr. by rewrite Hr. }
    replace (x r + ax + dx)%Z with (x r + (ax + dx))%Z by lia.
    replace (y r + ay + dy)%Z with (y r + (ay + dy))%Z by lia.
    apply (abs_child _ _ _ _ _ Hl'); [by rewrite Hroot|done].
Qed.

Lemma startBattle_positions {A} (arguments : A) ps :
  ∃ st, calculateBattlePositions ps = Ok st ∧
        startBattle arguments ps = Ok (positions st, HostStartBattle arguments).
Proof.
  destruct (calculateBattlePositions_returns ps) as (st & H & _).
  exists st. split; [done|]. unfold startBattle. by rewrite H.
Qed.

Lemma setActorHome_in_array ps index r :
  ps !! index = Some r →
  setActorHome ps (Z.of_nat index) = SetHome (realX r) (realY r).
Proof.
  intros Hl. unfold setActorHome, array_get.
  destruct (Z.ltb_spec (Z.of_nat index) 0) as [Hneg|_]; [lia|].
  by rewrite Nat2Z.id, Hl.
Qed.

(** X1.  After a pass no record is left with [realX] or [realY]
    [undefined], whatever the array and whatever the fields held
    before. *)
Theorem pass_leaves_no_field_undefined ps :
  ∃ st,
    calculateBattlePositions ps = Ok st ∧
    length (positions st) = length ps ∧
    Forall (λ r, realX r ≠ JUndefined ∧ realY r ≠ JUndefined) (positions st).
Proof.
  destruct (calculateBattlePositions_returns ps) as (st & H & _).
  destruct (pass_shape ps st H) as (_ & Hlen & _).
  exists st. split_and!; [done|done|].
  apply Forall_lookup. intros j r Hl. apply (pass_assigned ps st j r H Hl).
Qed.

(** X2.  A record whose parent chain never ends in a record without a
    parent has no absolute position, and a pass leaves [NaN] in its
    [realX] and [realY]. *)
Theorem unanchored_record_resolves_to_NaN ps index :
  PluginState ps → (index < length ps)%nat → ¬ anchored ps index →
  ∃ st r,
    calculateBattlePositions ps = Ok st ∧
    positions st !! index = Some r ∧
    realX r = JNaN ∧ realY r = JNaN.
Proof.
  intros Hps Hi Hna.
  destruct (calculateBattlePositions_returns ps) as (st & H & _).
  destruct (pass_shape ps st H) as (_ & Hlen & _).
  destruct (lookup_lt_is_Some_2 (positions st) index) as [r Hl]; [lia|].
  exists st, r. split_and!; [done|done|..];
    by apply (pass_unanchored_NaN ps st index r).
Qed.

(** X3.  Every record on a cycle of parent links, and every record
    whose chain leads into such a cycle, is left with [NaN] in [realX]
    and [realY]. *)
Theorem cycle_resolves_to_NaN ps index j :
  PluginState ps →
  reaches ps j j → index = j ∨ reaches ps index j →
  ∃ st r,
    calculateBattlePositions ps = Ok st ∧
    positions st !! index = Some r ∧
    realX r = JNaN ∧ realY r = JNaN.
Proof.
  intros Hps Hcycle Hto.
  assert (¬ anchored ps index) as Hna.
  { destruct Hto as [->|Hto]; [by apply cycle_not_anchored|].
    intros Ha. by apply (cycle_not_anchored ps j Hcycle), (reaches_anchored ps index). }
  assert (index < length ps)%nat as Hi.
  { destruct Hto as [->|Hto]; by eapply reaches_lookup. }
  destruct (calculateBattlePositions_returns ps) as (st & H & _).
  destruct (pass_shape ps st H) as (_ & Hlen & _).
  destruct (lookup_lt_is_Some_2 (positions st) index) as [r Hl]; [lia|].
  exists st, r. split_and!; [done|done|..];
    by apply (pass_unanchored_NaN ps st index r).
Qed.

(** X4.  After a pass every record satisfies the equation of its branch
    of [recursiveCalcPos] on the final array: a record without valid
    parent holds its own offset, any other record holds its offset added
    to what its parent holds. *)
Theorem pass_leaves_every_equation_satisfied ps :
  PluginState ps →
  ∃ st, calculateBattlePositions ps = Ok st ∧ consistent (positions st).
Proof.
  intros Hps. destruct (calculateBattlePositions_returns ps) as (st & H & _).
  exists st. split; [done|]. by apply (PluginState_pass_consistent ps).
Qed.

(** X5.  Any number of battles in a row leaves the array as the first
    of them left it. *)
Theorem later_battles_change_nothing ps n :
  PluginState ps →
  ∃ st, calculateBattlePositions ps = Ok st ∧
        battles (S n) ps = Ok (positions st).
Proof.
  intros Hps. destruct (startBattle_positions tt ps) as (st & H & Hsb).
  exists st. split; [done|].
  cbn [battles]. rewrite Hsb.
  pose proof (PluginState_pass_consistent ps st Hps H) as Hcons.
  clear Hsb H Hps. induction n as [|n IH]; [done|].
  cbn [battles].
  destruct (startBattle_positions tt (positions st)) as (st' & H' & ->).
  by rewrite (pass_fixed _ _ Hcons H').
Qed.

(** X6.  The [startBattle] override never throws: it always reaches the
    host's [startBattle], passes on its own arguments, and by then has
    kept the number of records and their configured fields. *)
Theorem startBattle_reaches_host {A} (arguments : A) ps :
  ∃ ps',
    startBattle arguments ps = Ok (ps', HostStartBattle arguments) ∧
    config <$> ps' = config <$> ps.
Proof.
  destruct (startBattle_positions arguments ps) as (st & H & Hsb).
  destruct (pass_shape ps st H) as (_ & _ & Hcfg & _).
  by exists (positions st).
Qed.

(** X7.  After [startBattle], [setActorHome] places a party member
    whose chain ends in a root, through safe integers, at the sums of
    the offsets along the chain. *)
Theorem setActorHome_after_startBattle {A} (arguments : A) ps index ax ay :
  ExactPosition ps index ax ay →
  ∃ ps',
    startBattle arguments ps = Ok (ps', HostStartBattle arguments) ∧
    setActorHome ps' (Z.of_nat index) = SetHome (JNum ax) (JNum ay).
Proof.
  intros Hpos%ExactPosition_AbsolutePosition.
  destruct (startBattle_positions arguments ps) as (st & H & Hsb).
  destruct (pass_absolute ps st index ax ay H Hpos) as (r & Hl & Ha).
  exists (positions st). split; [done|].
  rewrite (setActorHome_in_array _ _ r Hl).
  unfold anchor in Ha. by injection Ha as -> ->.
Qed.

(** X8.  After [startBattle], [setActorHome] places a party member
    that is on a cycle of parent links, or whose chain leads into one,
    at ([NaN], [NaN]). *)
Theorem setActorHome_on_cycle_after_startBattle {A} (arguments : A) ps index j :
  PluginState ps →
  reaches ps j j → index = j ∨ reaches ps index j →
  ∃ ps',
    startBattle arguments ps = Ok (ps', HostStartBattle arguments) ∧
    setActorHome ps' (Z.of_nat index) = SetHome JNaN JNaN.
Proof.
  intros Hps Hcycle Hto.
  assert (¬ anchored ps index) as Hna.
  { destruct Hto as [->|Hto]; [by apply cycle_not_anchored|].
    intros Ha. by apply (cycle_not_anchored ps j Hcycle), (reaches_anchored ps index). }
  assert (index < length ps)%nat as Hi.
  { destruct Hto as [->|Hto]; by eapply reaches_lookup. }
  destruct (startBattle_positions arguments ps) as (st & H & Hsb).
  destruct (pass_shape ps st H) as (_ & Hlen & _).
  destruct (lookup_lt_is_Some_2 (positions st) index) as [r Hl]; [lia|].
  destruct (pass_unanchored_NaN ps st index r Hps H Hl Hna) as [Hx Hy].
  exists (positions st). split; [done|].
  by rewrite (setActorHome_in_array _ _ r Hl), Hx, Hy.
Qed.

(** X9.  After [startBattle] the choice between the plugin and the host
    is still made by the length of the configured array: outside it
    [setActorHome] calls the host, inside it [setHome] is called and
    never receives [undefined]. *)
Theorem setActorHome_after_startBattle_total {A} (arguments : A) ps :
  ∃ ps',
    startBattle arguments ps = Ok (ps', HostStartBattle arguments) ∧
    ∀ index : Z,
      if decide (0 ≤ index < Z.of_nat (length ps))%Z
      then ∃ hx hy, setActorHome ps' index = SetHome hx hy ∧
                    hx ≠ JUndefined ∧ hy ≠ JUndefined
      else setActorHome ps' index = HostSetActorHome index.
Proof.
  destruct (startBattle_positions arguments ps) as (st & H & Hsb).
  destruct (pass_shape ps st H) as (_ & Hlen & _).
  exists (positions st). split; [done|]. intros index.
  case_decide as Hin.
  - destruct (setActorHome_position (positions st) index) as (r & Hl & ->);
      [lia|].
    destruct (pass_assigned ps st _ r H Hl) as [Hx Hy]. by exists (realX r), (realY r).
  - unfold setActorHome, array_get.
    destruct (Z.ltb_spec index 0) as [Hneg|Hpos]; [done|].
    rewrite (lookup_ge_None_2 (positions st) (Z.to_nat index)) by lia. done.
Qed.

(** X10.  When every [parentIndex] of an array is negative or an index
    of the array, adding entries at its end does not move a record whose
    chain ends in a root: the pass over the longer array leaves it the
    numbers the pass over the shorter one does. *)
Theorem appended_entries_move_nothing ps extra index :
  parents_in_range ps →
  anchored ps index →
  ∃ st st' r r' zx zy,
    calculateBattlePositions ps = Ok st ∧
    calculateBattlePositions (ps ++ extra) = Ok st' ∧
    positions st !! index = Some r ∧
    positions st' !! index = Some r' ∧
    realX r = JNum zx ∧ realY r = JNum zy ∧
    realX r' = JNum zx ∧ realY r' = JNum zy.
Proof.
  intros Hrange (ax & ay & Hpos).
  destruct (calculateBattlePositions_returns ps) as (st & H & _).
  destruct (calculateBattlePositions_returns (ps ++ extra)) as (st' & H' & _).
  destruct (pass_absolute ps st index ax ay H Hpos) as (r & Hl & Ha).
  destruct (pass_absolute (ps ++ extra) st' index ax ay H') as (r' & Hl' & Ha').
  { by apply AbsolutePosition_app. }
  exists st, st', r, r', ax, ay. unfold anchor in *.
  injection Ha as -> ->. injection Ha' as -> ->. done.
Qed.

(** X11.  Moving every record that has no valid parent by ([dx], [dy])
    moves every record whose chain ends in a root by ([dx], [dy]),
    provided the chain runs through safe integers before and after the
    move. *)
Theorem moving_the_roots_moves_the_party ps dx dy index ax ay bx by_ :
  ExactPosition ps index ax ay →
  ExactPosition (move_roots dx dy ps) index bx by_ →
  ∃ st st' r r',
    calculateBattlePositions ps = Ok st ∧
    calculateBattlePositions (move_roots dx dy ps) = Ok st' ∧
    positions st !! index = Some r ∧
    positions st' !! index = Some r' ∧
    realX r = JNum ax ∧ realY r = JNum ay ∧
    realX r' = JNum (ax + dx) ∧ realY r' = JNum (ay + dy).
Proof.
  intros Hpos%ExactPosition_AbsolutePosition Hpos'%ExactPosition_AbsolutePosition.
  destruct (AbsolutePosition_functional _ _ _ _ _ _ Hpos'
              (AbsolutePosition_move_roots ps dx dy index ax ay Hpos)) as [-> ->].
  destruct (calculateBattlePositions_returns ps) as (st & H & _).
  destruct (calculateBattlePositions_returns (move_roots dx dy ps)) as (st' & H' & _).
  destruct (pass_absolute _ st index ax ay H Hpos) as (r & Hl & Ha).
  destruct (pass_absolute _ st' index (ax + dx) (ay + dy) H' Hpos')
    as (r' & Hl' & Ha').
  exists st, st', r, r'. unfold anchor in *.
  injection Ha as -> ->. injection Ha' as -> ->. done.
Qed.

Lemma js_add_number a v z : js_add a v = JNum z → ∃ z', v = JNum z' ∧ z = (a + z')%Z.
Proof. destruct v as [| |z']; try done. intros [= <-]. by exists z'. Qed.

Lemma resolves_numbers ps index st st' :
  resolves index st st' →
  well_formed st → (index < length (positions st))%nat →
  config <$> positions st = config <$> ps →
  numbers_are_absolute ps st → numbers_are_absolute ps st'.
Proof.
  induction 1 as [index st Hv|index st curr Hv Hc Hr
                 |index st st' curr curr' parent Hv Hc Hr Hrec IH Hc' Hp];
    intros Hwf Hi Hcfg Hinv.
  - done.
  - intros j r zx zy Hl Hx Hy. rewrite lookup_assigned, positions_mark in Hl.
    case_decide as Hj; [|by apply (Hinv j r)].
    subst j. rewrite Hc in Hl. injection Hl as <-.
    cbn in Hx, Hy. injection Hx as <-. injection Hy as <-.
    apply (AbsolutePosition_config (positions st)); [done|].
    by apply abs_root.
  - pose proof (is_root_false_lt _ _ Hr) as Hlt.
    pose proof (well_formed_mark _ _ Hwf Hi) as Hwf1.
    destruct (resolves_shape _ _ _ Hrec Hwf1 Hlt)
      as (Hlen & _ & Hcfg' & _ & _ & Hframe).
    rewrite positions_mark in Hlen, Hcfg'.
    specialize (IH Hwf1 Hlt Hcfg Hinv).
    assert (curr' = curr) as ->.
    { rewrite Hframe, positions_mark in Hc'; [congruence|left].
      by rewrite is_visited_mark, bool_decide_eq_true_2. }
    intros j r zx zy Hl Hx Hy. rewrite lookup_assigned in Hl.
    case_decide as Hj; [|by apply (IH j r)].
    subst j. rewrite Hc' in Hl. injection Hl as <-. cbn in Hx, Hy.
    apply js_add_number in Hx as (zx' & Hpx & ->).
    apply js_add_number in Hy as (zy' & Hpy & ->).
    apply (AbsolutePosition_config (positions st)); [done|].
    apply abs_child; [done|done|].
    apply (AbsolutePosition_config ps); [done|].
    by apply (IH _ parent).
Qed.

Lemma resolves_all_numbers ps indices st st' :
  resolves_all indices st st' →
  well_formed st → Forall (λ index, index < length (positions st))%nat indices →
  config <$> positions st = config <$> ps →
  numbers_are_absolute ps st → numbers_are_absolute ps st'.
Proof.
  induction 1 as [st|index rest st st' st'' Hres Hall IH];
    intros Hwf Hlt Hcfg Hinv; [done|].
  apply Forall_cons in Hlt as [Hi Hlt].
  destruct (resolves_shape _ _ _ Hres Hwf Hi) as (Hlen & Hwf' & Hcfg' & _).
  apply IH; [done|by rewrite Hlen|by rewrite Hcfg'|].
  by apply (resolves_numbers ps _ _ _ Hres).
Qed.

Lemma pass_numbers ps st :
  numbers_are_absolute ps (initial ps) →
  calculateBattlePositions ps = Ok st →
  numbers_are_absolute ps st.
Proof.
  intros Hinv H. destruct (pass_shape ps st H) as (Hall & _).
  apply (resolves_all_numbers ps _ _ _ Hall); try done.
  - apply well_formed_initial.
  - apply Forall_forall. intros i Hi%elem_of_seq. cbn. lia.
Qed.

Lemma PluginState_numbers ps :
  PluginState ps → numbers_are_absolute ps (initial ps).
Proof.
  induction 1 as [ps Hun|ps st _ IH H].
  - intros j r zx zy Hl Hx _. cbn in Hl.
    pose proof (Forall_lookup_1 _ _ _ _ Hun Hl) as Hr.
    unfold unresolved, anchor in Hr. congruence.
  - destruct (pass_shape ps st H) as (_ & _ & Hcfg & _).
    intros j r zx zy Hl Hx Hy. cbn in Hl.
    apply (AbsolutePosition_config ps); [done|].
    by apply (pass_numbers ps st IH H j r).
Qed.

(** X12.  A pass gives numbers only to records that have an absolute
    position: a record that holds a number in [realX] and in [realY]
    after the pass has a parent chain that ends in a record without
    valid parent. *)
Theorem numbers_after_pass_are_absolute ps :
  PluginState ps →
  ∃ st,
    calculateBattlePositions ps = Ok st ∧
    ∀ index r zx zy,
      positions st !! index = Some r →
      realX r = JNum zx → realY r = JNum zy →
      anchored ps index.
Proof.
  intros Hps. destruct (calculateBattlePositions_returns ps) as (st & H & _).
  exists st. split; [done|]. intros index r zx zy Hl Hx Hy.
  exists zx, zy.
  apply (pass_numbers ps st (PluginState_numbers ps Hps) H index r); done.
Qed.

(** * Instances of the further properties *)

Lemma default_positions_last_absolute :
  AbsolutePosition default_positions 3 696 424.
Proof.
  exact (abs_child default_positions 3 (loaded 2 32 48) 664 376
           eq_refl eq_refl
        (abs_child default_positions 2 (loaded 1 32 48) 632 328
           eq_refl eq_refl
        (abs_child default_positions 1 (loaded 0 32 48) 600 280
           eq_refl eq_refl
        (abs_root default_positions 0 (loaded (-1) 600 280)
           eq_refl eq_refl)))).
Defined.

Lemma cyclic_positions_cycle : reaches cyclic_positions 0 0.
Proof.
  exact (reaches_further cyclic_positions 0 (loaded 1 10 10) 0
           eq_refl eq_refl
        (reaches_parent cyclic_positions 1 (loaded 0 5 5) eq_refl eq_refl)).
Defined.

Lemma cyclic_positions_tail : reaches cyclic_positions 2 0.
Proof.
  exact (reaches_further cyclic_positions 2 (loaded 1 3 3) 0
           eq_refl eq_refl
        (reaches_parent cyclic_positions 1 (loaded 0 5 5) eq_refl eq_refl)).
Defined.

Lemma unanchored_record_resolves_to_NaN_witness :
  ∃ st r,
    calculateBattlePositions cyclic_positions = Ok st ∧
    positions st !! 0%nat = Some r ∧
    realX r = JNaN ∧ realY r = JNaN.
Proof.
  apply (unanchored_record_resolves_to_NaN cyclic_positions 0).
  - apply plugin_loaded. repeat constructor.
  - cbn. lia.
  - apply cycle_not_anchored, cyclic_positions_cycle.
Defined.

Lemma cycle_resolves_to_NaN_witness :
  ∃ st r,
    calculateBattlePositions cyclic_positions = Ok st ∧
    positions st !! 2%nat = Some r ∧
    realX r = JNaN ∧ realY r = JNaN.
Proof.
  apply (cycle_resolves_to_NaN cyclic_positions 2 0).
  - apply plugin_loaded. repeat constructor.
  - apply cyclic_positions_cycle.
  - right. apply cyclic_positions_tail.
Defined.

Lemma pass_leaves_every_equation_satisfied_witness :
  ∃ st, calculateBattlePositions cyclic_positions = Ok st ∧
        consistent (positions st).
Proof.
  apply (pass_leaves_every_equation_satisfied cyclic_positions).
  apply plugin_loaded. repeat constructor.
Defined.

Lemma later_battles_change_nothing_witness :
  ∃ st, calculateBattlePositions default_positions = Ok st ∧
        battles 3 default_positions = Ok (positions st).
Proof.
  apply (later_battles_change_nothing default_positions 2).
  apply plugin_loaded. repeat constructor.
Defined.

Lemma setActorHome_after_startBattle_witness :
  ∃ ps',
    startBattle tt default_positions = Ok (ps', HostStartBattle tt) ∧
    setActorHome ps' 3 = SetHome (JNum 696) (JNum 424).
Proof.
  apply (setActorHome_after_startBattle tt default_positions 3 696 424).
  apply (exact_position_sound 4). reflexivity.
Defined.

Lemma setActorHome_on_cycle_after_startBattle_witness :
  ∃ ps',
    startBattle tt cyclic_positions = Ok (ps', HostStartBattle tt) ∧
    setActorHome ps' 2 = SetHome JNaN JNaN.
Proof.
  apply (setActorHome_on_cycle_after_startBattle tt cyclic_positions 2 0).
  - apply plugin_loaded. repeat constructor.
  - apply cyclic_positions_cycle.
  - right. apply cyclic_positions_tail.
Defined.

Lemma appended_entries_move_nothing_witness :
  ∃ st st' r r' zx zy,
    calculateBattlePositions default_positions = Ok st ∧
    calculateBattlePositions (default_positions ++ [loaded 3 32 48]) = Ok st' ∧
    positions st !! 3%nat = Some r ∧
    positions st' !! 3%nat = Some r' ∧
    realX r = JNum zx ∧ realY r = JNum zy ∧
    realX r' = JNum zx ∧ realY r' = JNum zy.
Proof.
  apply (appended_entries_move_nothing default_positions [loaded 3 32 48] 3).
  - repeat constructor.
  - exists 696%Z, 424%Z. apply default_positions_last_absolute.
Defined.

Lemma moving_the_roots_moves_the_party_witness :
  ∃ st st' r r',
    calculateBattlePositions default_positions = Ok st ∧
    calculateBattlePositions (move_roots 10 (-5) default_positions) = Ok st' ∧
    positions st !! 3%nat = Some r ∧
    positions st' !! 3%nat = Some r' ∧
    realX r = JNum 696 ∧ realY r = JNum 424 ∧
    realX r' = JNum 706 ∧ realY r' = JNum 419.
Proof.
  apply (moving_the_roots_moves_the_party default_positions 10 (-5) 3
           696 424 706 419).
  - apply (exact_position_sound 4). reflexivity.
  - apply (exact_position_sound 4). reflexivity.
Defined.

Lemma numbers_after_pass_are_absolute_witness :
  ∃ st,
    calculateBattlePositions default_positions = Ok st ∧
    ∀ index r zx zy,
      positions st !! index = Some r →
      realX r = JNum zx → realY r = JNum zy →
      anchored default_positions index.
Proof.
  apply (numbers_after_pass_are_absolute default_positions).
  apply plugin_loaded. repeat constructor.
Defined.
